(** * Memory contexts: manager, context tree and idle reaper

    A shallow embedding of the Go package [contexts] (the context manager
    with its registry and cleanup routine, and [MemoryContext] with its
    children and pools), followed by the properties of the specification
    that are proved or refuted against it.

    Go pointers are modelled by a store: a [*MemoryContext] is an index
    into the list of allocated contexts, [nil] is [None].  Every caller
    that holds a handle therefore sees the same object as the registry. *)

From stdpp Require Import gmap strings list fin_maps.
From Stdlib Require Import ZArith Lia.
Local Open Scope Z_scope.

(** ** Errors and outcomes *)

(** The sentinel errors of the package, the anonymous error of
    [ReturnContext], the error of the pool collaborator, and [fmt.Errorf]
    wrapping with its message prefix. *)
Inductive error : Type :=
| ErrContextNotFound
| ErrContextInUse
| ErrInvalidContextType
| ErrContextClosed
| ErrContextManagerClosed
| ErrMaxReferencesReached
| ErrInvalidConfig
| ErrNilContext
| ErrPool
| ErrWrap (msg : string) (inner : error).

(** What a call can do besides returning: panic (nil dereference, write to
    a nil map, close of a closed channel) or block forever on a mutex the
    calling goroutine already holds ([sync.RWMutex] is not reentrant).
    [OutOfFuel] belongs to the model only, see [Close_total]. *)
Inductive result (A : Type) : Type :=
| Ret (a : A)
| Panic
| Deadlock
| OutOfFuel.
Arguments Ret {A} a.
Arguments Panic {A}.
Arguments Deadlock {A}.
Arguments OutOfFuel {A}.

Global Instance result_bind : MBind result := λ A B f r,
  match r with
  | Ret a => f a
  | Panic => Panic
  | Deadlock => Deadlock
  | OutOfFuel => OutOfFuel
  end.
Global Instance result_ret : MRet result := λ A a, Ret a.
Global Instance result_fmap : FMap result := λ A B f r,
  match r with
  | Ret a => Ret (f a)
  | Panic => Panic
  | Deadlock => Deadlock
  | OutOfFuel => OutOfFuel
  end.

(** ** Machine integers and time *)

(** [int32] arithmetic wraps around. *)
Definition wrap32 (z : Z) : Z := (z + 2 ^ 31) mod 2 ^ 32 - 2 ^ 31.

Definition int32_range (z : Z) : Prop := - 2 ^ 31 <= z < 2 ^ 31.

(** Instants and durations in nanoseconds.  [time.Time.Sub] saturates at
    the bounds of [time.Duration] (an [int64]). *)
Definition maxDuration : Z := 2 ^ 63 - 1.
Definition minDuration : Z := - 2 ^ 63.
Definition time_Sub (t u : Z) : Z := Z.max minDuration (Z.min maxDuration (t - u)).
Definition time_Since (now t : Z) : Z := time_Sub now t.

(** ** The pool collaborator *)

Module pool.

(** Modelled from the spec: an object handed out by a pool, with its
    run-time type (what [reflect.TypeOf] returns for it). *)
Record Obj : Type := { obj_type : string; obj_id : nat }.

(** Modelled from the spec: of a pool configuration only whether the
    constructor rejects it and whether the pool built from it fails to
    close matter here. *)
Record PoolConfig : Type := { cfg_invalid : bool; cfg_close_fails : bool }.

(** Modelled from the spec: the package [memctx/pool] is not part of the
    sources.  The spec requires of it create-with-config (which may
    fail), acquire-one, release-one and close (which may fail); its
    capacity policy is left open.  A pool records its object type, the
    idle objects, how many it has built, whether it is closed and
    whether its [Close] reports an error. *)
Record Pool : Type := {
  pool_type : string;
  idle : list Obj;
  made : nat;
  pool_closed : bool;
  close_fails : bool
}.

(** Modelled from the spec: the constructor of the pool package, which
    either fails on its configuration or yields an open, empty pool of
    the given object type. *)
Definition NewPool (config : PoolConfig) (objectType : string) : option Pool :=
  if cfg_invalid config then None
  else Some {| pool_type := objectType; idle := []; made := 0;
               pool_closed := false; close_fails := cfg_close_fails config |}.

(** Modelled from the spec: acquire-one hands out an idle object, or
    builds one of the pool's type when none is idle. *)
Definition Get (p : Pool) : Obj * Pool :=
  match idle p with
  | o :: rest =>
      (o, {| pool_type := pool_type p; idle := rest; made := made p;
             pool_closed := pool_closed p; close_fails := close_fails p |})
  | [] =>
      ({| obj_type := pool_type p; obj_id := made p |},
       {| pool_type := pool_type p; idle := []; made := S (made p);
          pool_closed := pool_closed p; close_fails := close_fails p |})
  end.

(** Modelled from the spec: release-one puts the object back. *)
Definition Put (o : Obj) (p : Pool) : Pool :=
  {| pool_type := pool_type p; idle := o :: idle p; made := made p;
     pool_closed := pool_closed p; close_fails := close_fails p |}.

(** Modelled from the spec: close either reports an error and leaves the
    pool as it is, or releases the idle objects and marks the pool
    closed. *)
Definition Close (p : Pool) : Pool * option error :=
  if close_fails p then (p, Some ErrPool)
  else ({| pool_type := pool_type p; idle := []; made := made p;
           pool_closed := true; close_fails := false |}, None).

End pool.

(** ** Data model *)

(** A pointer to a context: [None] is [nil]. *)
Abbreviation ptr := (option nat).

Record MemoryContext : Type := {
  active : bool;
  closed : bool;
  referenceCount : Z;
  contextType : string;
  parent : ptr;
  children : list ptr;
  pools : option (gmap string nat);
  createdAt : Z;
  lastUsed : Z
}.

Record MemoryContextConfig : Type := {
  Parent : ptr;
  ContextType : string
}.

Record ContextConfig : Type := {
  MaxReferences : Z;
  MaxIdleTime : Z;
  CleanupInterval : Z
}.

Inductive chan : Type := ChanOpen | ChanClosed | ChanNil.

Record ContextManager : Type := {
  ctxCache : option (gmap string nat);
  config : option ContextConfig;
  stopChan : chan;
  cm_closed : bool
}.

(** The allocated contexts, the allocated pools and the manager. *)
Record state : Type := {
  heap : list MemoryContext;
  pstore : list pool.Pool;
  mgr : ContextManager
}.

Definition DefaultMaxReferences : Z := 10.
Definition DefaultMaxIdleTime : Z := 5 * 60 * 1000000000.
Definition DefaultCleanupInterval : Z := 60 * 1000000000.

Definition newDefaultConfig : ContextConfig :=
  {| MaxReferences := DefaultMaxReferences;
     MaxIdleTime := DefaultMaxIdleTime;
     CleanupInterval := DefaultCleanupInterval |}.

(** Field updates. *)
Definition set_heap (h : list MemoryContext) (s : state) : state :=
  {| heap := h; pstore := pstore s; mgr := mgr s |}.
Definition set_pstore (ps : list pool.Pool) (s : state) : state :=
  {| heap := heap s; pstore := ps; mgr := mgr s |}.
Definition set_mgr (m : ContextManager) (s : state) : state :=
  {| heap := heap s; pstore := pstore s; mgr := m |}.
Definition set_cache (c : option (gmap string nat)) (m : ContextManager) : ContextManager :=
  {| ctxCache := c; config := config m; stopChan := stopChan m; cm_closed := cm_closed m |}.

Definition with_count (n : Z) (c : MemoryContext) : MemoryContext :=
  {| active := active c; closed := closed c; referenceCount := n;
     contextType := contextType c; parent := parent c; children := children c;
     pools := pools c; createdAt := createdAt c; lastUsed := lastUsed c |}.
Definition with_active (b : bool) (c : MemoryContext) : MemoryContext :=
  {| active := b; closed := closed c; referenceCount := referenceCount c;
     contextType := contextType c; parent := parent c; children := children c;
     pools := pools c; createdAt := createdAt c; lastUsed := lastUsed c |}.
Definition with_children (cs : list ptr) (c : MemoryContext) : MemoryContext :=
  {| active := active c; closed := closed c; referenceCount := referenceCount c;
     contextType := contextType c; parent := parent c; children := cs;
     pools := pools c; createdAt := createdAt c; lastUsed := lastUsed c |}.
Definition with_pools (ps : option (gmap string nat)) (c : MemoryContext) : MemoryContext :=
  {| active := active c; closed := closed c; referenceCount := referenceCount c;
     contextType := contextType c; parent := parent c; children := children c;
     pools := ps; createdAt := createdAt c; lastUsed := lastUsed c |}.

(** The five assignments that end a successful [Close]. *)
Definition close_fields (c : MemoryContext) : MemoryContext :=
  {| active := false; closed := true; referenceCount := 0;
     contextType := contextType c; parent := parent c; children := [];
     pools := None; createdAt := createdAt c; lastUsed := lastUsed c |}.

(** Reading a Go map: a nil map reads as empty. *)
Definition registry (s : state) : gmap string nat := default ∅ (ctxCache (mgr s)).
Definition ctx_pools (c : MemoryContext) : gmap string nat := default ∅ (pools c).

(** ** MemoryContext *)

Definition NewMemoryContext (cfg : MemoryContextConfig) (now : Z) (s : state) : state * nat :=
  let mc := {| active := false; closed := false; referenceCount := 0;
               contextType := ContextType cfg; parent := Parent cfg;
               children := []; pools := Some ∅;
               createdAt := now; lastUsed := now |} in
  (set_heap (heap s ++ [mc]) s, length (heap s)).

(** [RegisterChild] run by a goroutine that already holds the mutexes of
    the contexts in [held]. *)
Definition RegisterChild_held (held : list nat) (child : ptr) (mc : ptr) (s : state)
  : result state :=
  match mc with
  | None => Panic
  | Some l =>
      match heap s !! l with
      | None => Panic
      | Some c =>
          if decide (l ∈ held) then Deadlock
          else Ret (set_heap (<[l := with_children (children c ++ [child]) c]> (heap s)) s)
      end
  end.

Definition RegisterChild (child : ptr) (mc : ptr) (s : state) : result state :=
  RegisterChild_held [] child mc s.

Definition allocate (now : Z) (l : nat) (c : MemoryContext) (s : state) : state * nat :=
  NewMemoryContext {| Parent := Some l; ContextType := contextType c |} now s.

(** [CreateChild] takes the receiver's mutex and, still holding it, calls
    [RegisterChild], which takes the same mutex. *)
Definition CreateChild (now : Z) (mc : ptr) (s : state) : result (state * option error) :=
  match mc with
  | None => Panic
  | Some l =>
      match heap s !! l with
      | None => Panic
      | Some c =>
          if closed c then Ret (s, Some ErrContextClosed)
          else
            let '(s1, memCtx) := allocate now l c s in
            s2 ← RegisterChild_held [l] (Some memCtx) (Some l) s1;
            Ret (s2, None)
      end
  end.

Definition CreatePool (objectType : string) (cfg : pool.PoolConfig) (mc : ptr) (s : state)
  : result (state * option error) :=
  match mc with
  | None => Panic
  | Some l =>
      match heap s !! l with
      | None => Panic
      | Some c =>
          if closed c then Ret (s, Some ErrContextClosed)
          else
            match pool.NewPool cfg objectType with
            | None => Ret (s, Some (ErrWrap "NewPool failed" ErrPool))
            | Some poolObj =>
                match pools c with
                | None => Panic
                | Some m =>
                    let p := length (pstore s) in
                    Ret (set_heap (<[l := with_pools (Some (<[objectType := p]> m)) c]> (heap s))
                           (set_pstore (pstore s ++ [poolObj]) s), None)
                end
            end
      end
  end.

Definition Acquire (objectType : string) (mm : ptr) (s : state)
  : result (state * option pool.Obj) :=
  match mm with
  | None => Panic
  | Some l =>
      match heap s !! l with
      | None => Panic
      | Some c =>
          if closed c then Ret (s, None)
          else
            match ctx_pools c !! objectType with
            | None => Ret (s, None)
            | Some p =>
                match pstore s !! p with
                | None => Panic
                | Some poolObj =>
                    let '(obj, poolObj') := pool.Get poolObj in
                    Ret (set_pstore (<[p := poolObj']> (pstore s)) s, Some obj)
                end
            end
      end
  end.

Definition Release (objectType : string) (obj : pool.Obj) (mm : ptr) (s : state)
  : result (state * bool) :=
  match mm with
  | None => Panic
  | Some l =>
      match heap s !! l with
      | None => Panic
      | Some c =>
          if closed c then Ret (s, false)
          else
            match ctx_pools c !! objectType with
            | None => Ret (s, false)
            | Some p =>
                if negb (String.eqb (pool.obj_type obj) objectType) then Ret (s, false)
                else
                  match pstore s !! p with
                  | None => Panic
                  | Some poolObj =>
                      Ret (set_pstore (<[p := pool.Put obj poolObj]> (pstore s)) s, true)
                  end
            end
      end
  end.

Definition GetPool (objectType : string) (mm : ptr) (s : state) : result (state * option nat) :=
  match mm with
  | None => Panic
  | Some l =>
      match heap s !! l with
      | None => Panic
      | Some c => Ret (s, ctx_pools c !! objectType)
      end
  end.

(** The first loop of [Close]: the pools in the order the runtime yields
    them, stopping at the first error. *)
Fixpoint close_pools (ps : list (string * nat)) (s : state) : result (state * option error) :=
  match ps with
  | [] => Ret (s, None)
  | (_, p) :: rest =>
      match pstore s !! p with
      | None => Panic
      | Some poolObj =>
          let '(poolObj', err) := pool.Close poolObj in
          let s' := set_pstore (<[p := poolObj']> (pstore s)) s in
          match err with
          | Some e => Ret (s', Some (ErrWrap "failed to close pool" e))
          | None => close_pools rest s'
          end
      end
  end.

(** The second loop of [Close], over the children, with the recursive call
    as a parameter. *)
Fixpoint close_children (closeChild : ptr → state → result (state * option error))
    (cs : list ptr) (s : state) : result (state * option error) :=
  match cs with
  | [] => Ret (s, None)
  | child :: rest =>
      '(s', err) ← closeChild child s;
      match err with
      | Some e => Ret (s', Some (ErrWrap "failed to close child context" e))
      | None => close_children closeChild rest s'
      end
  end.

(** [Close], with the mutexes the goroutine holds on the way down.  Every
    nested call locks one more context, so the nesting depth is bounded by
    the number of contexts; [fuel] is that bound. *)
Fixpoint Close_fuel (fuel : nat) (held : list nat) (mc : ptr) (s : state)
  : result (state * option error) :=
  match fuel with
  | O => OutOfFuel
  | S fuel' =>
      match mc with
      | None => Panic
      | Some l =>
          match heap s !! l with
          | None => Panic
          | Some c =>
              if decide (l ∈ held) then Deadlock
              else if closed c then Ret (s, None)
              else
                '(s1, err) ← close_pools (map_to_list (ctx_pools c)) s;
                match err with
                | Some e => Ret (s1, Some e)
                | None =>
                    '(s2, err) ← close_children (Close_fuel fuel' (l :: held)) (children c) s1;
                    match err with
                    | Some e => Ret (s2, Some e)
                    | None => Ret (set_heap (alter close_fields l (heap s2)) s2, None)
                    end
                end
          end
      end
  end.

Definition Close (mc : ptr) (s : state) : result (state * option error) :=
  Close_fuel (S (length (heap s))) [] mc s.

(** ** ContextManager *)

Definition NewContextManager (cfg : option ContextConfig) (s : state) : state :=
  set_mgr {| ctxCache := Some ∅;
             config := Some (default newDefaultConfig cfg);
             stopChan := ChanOpen;
             cm_closed := false |} s.

Definition empty_state : state :=
  {| heap := []; pstore := [];
     mgr := {| ctxCache := None; config := None; stopChan := ChanNil; cm_closed := false |} |}.

Definition StopCleanup (s : state) : result state :=
  match stopChan (mgr s) with
  | ChanOpen =>
      Ret (set_mgr {| ctxCache := ctxCache (mgr s); config := config (mgr s);
                      stopChan := ChanClosed; cm_closed := cm_closed (mgr s) |} s)
  | ChanClosed | ChanNil => Panic
  end.

Definition GetOrCreateContext (ctxType : string) (cfg : MemoryContextConfig) (now : Z)
    (s : state) : result (state * (ptr * bool * option error)) :=
  if String.eqb ctxType "" then Ret (s, (None, false, Some ErrInvalidContextType))
  else
    match registry s !! ctxType with
    | None =>
        let '(s1, l) := NewMemoryContext cfg now s in
        let s2 := set_heap (alter (λ c, with_count 1 (with_active true c)) l (heap s1)) s1 in
        match ctxCache (mgr s2) with
        | None => Panic
        | Some m => Ret (set_mgr (set_cache (Some (<[ctxType := l]> m)) (mgr s2)) s2,
                         (Some l, false, None))
        end
    | Some l =>
        match heap s !! l with
        | None => Panic
        | Some ctx =>
            if closed ctx then Ret (s, (None, false, Some ErrContextClosed))
            else
              match config (mgr s) with
              | None => Panic
              | Some cc =>
                  if (0 <? MaxReferences cc) && (MaxReferences cc <=? referenceCount ctx)
                  then Ret (s, (None, false, Some ErrMaxReferencesReached))
                  else Ret (set_heap (<[l := with_count (wrap32 (referenceCount ctx + 1)) ctx]>
                                        (heap s)) s,
                            (Some l, true, None))
              end
        end
    end.

Definition ReturnContext (ctx : ptr) (s : state) : result (state * option error) :=
  match ctx with
  | None => Ret (s, Some ErrNilContext)
  | Some l =>
      match heap s !! l with
      | None => Panic
      | Some c =>
          if closed c then Ret (s, Some ErrContextClosed)
          else
            let n := if 0 <? referenceCount c then referenceCount c - 1 else referenceCount c in
            Ret (set_heap (<[l := with_active (0 <? n) (with_count n c)]> (heap s)) s, None)
      end
  end.

(** [locked] only decides whether the manager's mutex is taken here; the
    manager never calls this while holding it with [locked = false]. *)
Definition CloseContext (ctxType : string) (locked : bool) (s : state)
  : result (state * option error) :=
  match registry s !! ctxType with
  | None => Ret (s, Some ErrContextNotFound)
  | Some l =>
      match heap s !! l with
      | None => Panic
      | Some ctx =>
          if 0 <? referenceCount ctx then Ret (s, Some ErrContextInUse)
          else
            '(s1, err) ← Close (Some l) s;
            match err with
            | Some e => Ret (s1, Some (ErrWrap (String.append "error closing context " ctxType) e))
            | None =>
                Ret (set_mgr (set_cache (delete ctxType <$> ctxCache (mgr s1)) (mgr s1)) s1, None)
            end
      end
  end.

Definition ValidateContext (ctx : ptr) (s : state) : result bool :=
  match ctx with
  | None => Ret false
  | Some l =>
      match heap s !! l with
      | None => Panic
      | Some c => Ret (negb (closed c) && active c)
      end
  end.

(** One iteration of the loop of [cleanupIdleContexts]. *)
Definition cleanup_visit (now : Z) (entry : string * nat) (s : state) : result state :=
  let '(ctxType, l) := entry in
  match heap s !! l with
  | None => Panic
  | Some ctx =>
      if active ctx then Ret s
      else
        match config (mgr s) with
        | None => Panic
        | Some cc =>
            if MaxIdleTime cc <? time_Since now (lastUsed ctx)
            then '(s', _) ← CloseContext ctxType true s; Ret s'
            else Ret s
        end
  end.

Fixpoint cleanup_loop (now : Z) (entries : list (string * nat)) (s : state) : result state :=
  match entries with
  | [] => Ret s
  | entry :: rest => s' ← cleanup_visit now entry s; cleanup_loop now rest s'
  end.

(** A visit deletes at most its own key, so every entry of the map as it
    was when the loop started is still there when its turn comes. *)
Definition cleanupIdleContexts (now : Z) (s : state) : result state :=
  cleanup_loop now (map_to_list (registry s)) s.

Fixpoint close_all (keys : list string) (s : state) : result (state * option error) :=
  match keys with
  | [] => Ret (s, None)
  | ctxType :: rest =>
      '(s', err) ← CloseContext ctxType false s;
      match err with
      | Some e => Ret (s', Some (ErrWrap (String.append "error closing context " ctxType) e))
      | None => close_all rest s'
      end
  end.

(** [Close] of the manager. *)
Definition ContextManager_Close (s : state) : result (state * option error) :=
  if cm_closed (mgr s) then Ret (s, Some ErrContextManagerClosed)
  else
    match config (mgr s) with
    | None => Panic
    | Some cc =>
        s1 ← (if 0 <? CleanupInterval cc then StopCleanup s else Ret s);
        '(s2, err) ← close_all (map_to_list (registry s1)).*1 s1;
        match err with
        | Some e => Ret (s2, Some e)
        | None =>
            Ret (set_mgr {| ctxCache := None; config := None;
                            stopChan := ChanNil; cm_closed := true |} s2, None)
        end
    end.

(** * Predicates on states *)

(** ** Closed contexts and pools *)

(** The context at [l] has its [closed] flag set. *)
Definition is_closed (s : state) (l : nat) : Prop :=
  ∃ c, heap s !! l = Some c ∧ closed c = true.

(** The pool at [p] is closed. *)
Definition pool_is_closed (s : state) (p : nat) : Prop :=
  ∃ pl, pstore s !! p = Some pl ∧ pool.pool_closed pl = true.

(** The invariant of the data model for one context: once closed it owns
    no pools and no children, and it is neither counted nor active. *)
Definition closed_ok (c : MemoryContext) : Prop :=
  closed c = true →
  ctx_pools c = ∅ ∧ children c = [] ∧ referenceCount c = 0 ∧ active c = false.

(** The same for every allocated context. *)
Definition closed_inv (s : state) : Prop := Forall closed_ok (heap s).

(** ** The tree of contexts *)

(** [l] is in the children of some allocated context. *)
Definition is_child (s : state) (l : nat) : Prop :=
  ∃ p c, heap s !! p = Some c ∧ Some l ∈ children c.



(** From [s] to [s'] no context or pool was allocated or freed, a context
    is either untouched or was open, satisfies [P] and went through the
    final assignments of [Close], and a closed pool stays closed. *)
Record evolves_on (P : nat → Prop) (s s' : state) : Prop := {
  ev_len : length (heap s') = length (heap s);
  ev_plen : length (pstore s') = length (pstore s);
  ev_ctx : ∀ l c, heap s !! l = Some c →
           heap s' !! l = Some c ∨
           (P l ∧ closed c = false ∧ heap s' !! l = Some (close_fields c));
  ev_pool : ∀ p pl, pstore s !! p = Some pl →
            ∃ pl', pstore s' !! p = Some pl' ∧
                   (pool.pool_closed pl = true → pool.pool_closed pl' = true)
}.

Abbreviation evolves := (evolves_on (λ _, True)).

(** ** The registry *)

(** Top-level contexts are roots, one per key: no registered context is in
    the children of any context, and no two keys share one. *)
Definition top_level_roots (s : state) : Prop :=
  (∀ k l, registry s !! k = Some l → ¬ is_child s l) ∧
  (∀ k k' l, registry s !! k = Some l → registry s !! k' = Some l → k = k').

(** The entry of [k] and its context are what they were. *)
Definition kept (s' : state) (k : string) (l : nat) (c : MemoryContext) : Prop :=
  registry s' !! k = Some l ∧ heap s' !! l = Some c.

(** The conditions under which the reaper closes: not active, idle for
    longer than the configured time, and no reference left. *)
Definition reapable (s : state) (now : Z) (c : MemoryContext) : Prop :=
  ∃ cc, config (mgr s) = Some cc ∧ active c = false ∧
        MaxIdleTime cc < time_Since now (lastUsed c) ∧ referenceCount c <= 0.

(** * Operations as data *)

(** The operations of the package, and their effect on the state. *)
Inductive op : Type :=
| OpNewContextManager (cfg : option ContextConfig)
| OpNewMemoryContext (cfg : MemoryContextConfig) (now : Z)
| OpGetOrCreateContext (k : string) (cfg : MemoryContextConfig) (now : Z)
| OpReturnContext (ctx : ptr)
| OpCloseContext (k : string) (locked : bool)
| OpValidateContext (ctx : ptr)
| OpCleanupIdleContexts (now : Z)
| OpStopCleanup
| OpManagerClose
| OpCreateChild (now : Z) (mc : ptr)
| OpRegisterChild (child mc : ptr)
| OpCreatePool (t : string) (cfg : pool.PoolConfig) (mc : ptr)
| OpAcquire (t : string) (mm : ptr)
| OpRelease (t : string) (obj : pool.Obj) (mm : ptr)
| OpGetPool (t : string) (mm : ptr)
| OpClose (mc : ptr).

Definition run_op (o : op) (s : state) : result state :=
  match o with
  | OpNewContextManager cfg => Ret (NewContextManager cfg s)
  | OpNewMemoryContext cfg now => Ret (NewMemoryContext cfg now s).1
  | OpGetOrCreateContext k cfg now => fst <$> GetOrCreateContext k cfg now s
  | OpReturnContext ctx => fst <$> ReturnContext ctx s
  | OpCloseContext k locked => fst <$> CloseContext k locked s
  | OpValidateContext ctx => (λ _, s) <$> ValidateContext ctx s
  | OpCleanupIdleContexts now => cleanupIdleContexts now s
  | OpStopCleanup => StopCleanup s
  | OpManagerClose => fst <$> ContextManager_Close s
  | OpCreateChild now mc => fst <$> CreateChild now mc s
  | OpRegisterChild child mc => RegisterChild child mc s
  | OpCreatePool t cfg mc => fst <$> CreatePool t cfg mc s
  | OpAcquire t mm => fst <$> Acquire t mm s
  | OpRelease t obj mm => fst <$> Release t obj mm s
  | OpGetPool t mm => fst <$> GetPool t mm s
  | OpClose mc => fst <$> Close mc s
  end.

(** ** A caller of one key *)

(** A caller of the manager working on one key: it asks for the context of
    the key, or returns the handle it was given for it.  These calls never
    replace the entry of the key, so the handle is the registered context
    (and [nil] before the first call). *)
Inductive call : Type :=
| CallGet (cfg : MemoryContextConfig) (now : Z)
| CallReturn.

(** What the caller has seen: calls that created the context, calls that
    shared it, calls of [ReturnContext] that reported no error, and among
    these the ones that found a positive count. *)
Record tally : Type := {
  creates : Z;
  shares : Z;
  returns : Z;
  decrements : Z
}.

Definition tally0 : tally := {| creates := 0; shares := 0; returns := 0; decrements := 0 |}.

(** The count of the context registered under [k], if there is one. *)
Definition key_count (k : string) (s : state) : option Z :=
  l ← registry s !! k; referenceCount <$> heap s !! l.

Definition run_call (k : string) (c : call) (st : state * tally) : result (state * tally) :=
  let '(s, t) := st in
  match c with
  | CallGet cfg now =>
      '(s', (_, wasExisting, err)) ← GetOrCreateContext k cfg now s;
      Ret (s', match err with
               | Some _ => t
               | None =>
                   if wasExisting : bool
                   then {| creates := creates t; shares := shares t + 1;
                           returns := returns t; decrements := decrements t |}
                   else {| creates := creates t + 1; shares := shares t;
                           returns := returns t; decrements := decrements t |}
               end)
  | CallReturn =>
      '(s', err) ← ReturnContext (registry s !! k) s;
      Ret (s', match err with
               | Some _ => t
               | None =>
                   {| creates := creates t; shares := shares t;
                      returns := returns t + 1;
                      decrements := decrements t +
                        match key_count k s with
                        | Some n => if 0 <? n then 1 else 0
                        | None => 0
                        end |}
               end)
  end.

Fixpoint run_calls (k : string) (cs : list call) (st : state * tally)
  : result (state * tally) :=
  match cs with
  | [] => Ret st
  | c :: rest => st' ← run_call k c st; run_calls k rest st'
  end.

(** The bookkeeping of a caller of key [k] under configuration [cc] after
    at most [n] calls: the manager is live, and the count of the key's
    context is what the tally says. *)
Definition counted (k : string) (cc : ContextConfig) (n : Z) (s : state) (t : tally) : Prop :=
  ∃ m, ctxCache (mgr s) = Some m ∧ config (mgr s) = Some cc ∧
       0 <= shares t ∧ 0 <= decrements t <= returns t ∧ creates t + shares t <= n ∧
       match m !! k with
       | None => creates t = 0 ∧ shares t = 0 ∧ decrements t = 0
       | Some l =>
           ∃ c, heap s !! l = Some c ∧ closed c = false ∧ creates t = 1 ∧
                referenceCount c = creates t + shares t - decrements t ∧
                0 <= referenceCount c
       end.

(** * Sample states *)

Definition cfgA : MemoryContextConfig := {| Parent := None; ContextType := "a" |}.

Definition cfgB : MemoryContextConfig := {| Parent := None; ContextType := "b" |}.

(** A manager with the default configuration and nothing allocated. *)
Definition fresh : state := NewContextManager None empty_state.

(** The state a call leaves behind (the initial state if it does not
    return). *)
Definition state_of {A : Type} (r : result (state * A)) : state :=
  match r with
  | Ret (s, _) => s
  | _ => empty_state
  end.

Definition sample_pool (t : string) : pool.Pool :=
  {| pool.pool_type := t; pool.idle := []; pool.made := 0;
     pool.pool_closed := false; pool.close_fails := false |}.

Definition sample_ctx (cs : list ptr) (ps : gmap string nat) : MemoryContext :=
  {| active := false; closed := false; referenceCount := 0; contextType := "a";
     parent := None; children := cs; pools := Some ps; createdAt := 0; lastUsed := 0 |}.

(** A context of the defaults of [NewMemoryContext], taken once. *)
Definition created (cfg : MemoryContextConfig) (now : Z) : MemoryContext :=
  {| active := true; closed := false; referenceCount := 1;
     contextType := ContextType cfg; parent := Parent cfg;
     children := []; pools := Some ∅; createdAt := now; lastUsed := now |}.

(** One reference taken on "a", and then returned. *)
Definition taken1 : state := state_of (GetOrCreateContext "a" cfgA 0 fresh).
Definition returned1 : state := state_of (ReturnContext (Some 0%nat) taken1).

(** The context of "a" taken, returned and taken again. *)
Definition retaken1 : state := state_of (GetOrCreateContext "a" cfgA 1 returned1).

(** The context of "a" created at instant 100 and shared at instant 200. *)
Definition created100 : state := state_of (GetOrCreateContext "a" cfgA 100 fresh).
Definition shared200 : state := state_of (GetOrCreateContext "a" cfgA 200 created100).

(** "a" was taken and returned at instant 0, "b" was taken at instant 0
    and is still held. *)
Definition idle_and_busy : state := state_of (GetOrCreateContext "b" cfgB 0 returned1).

(** "a" and "b" were taken at instant 0, the context of "b" was registered
    as a child of the context of "a", and "a" was returned: "a" is idle
    and unreferenced, "b" is active with one reference. *)
Definition nested_registered : state :=
  state_of (ReturnContext (Some 0%nat)
    (match RegisterChild (Some 1%nat) (Some 0%nat)
             (state_of (GetOrCreateContext "b" cfgB 0 taken1)) with
     | Ret s => s
     | _ => empty_state
     end)).

(** The context of "a" taken, returned, closed by key and taken anew: the
    first caller still holds the handle 0 of the closed context, the
    registry has the new context 1. *)
Definition stale_handle : state :=
  state_of (GetOrCreateContext "a" cfgA 2 (state_of (CloseContext "a" false returned1))).

(** The scenario of the specification's examples: ceiling 2, idle time
    100 ms, no cleanup goroutine. *)
Definition cfg_small : ContextConfig :=
  {| MaxReferences := 2; MaxIdleTime := 100000000; CleanupInterval := 0 |}.

Definition small : state := NewContextManager (Some cfg_small) empty_state.

(** A manager shut down right after its construction. *)
Definition shut_down : state := state_of (ContextManager_Close fresh).

(** A root, its child and its grandchild, each with one pool. *)
Definition tree3 : state :=
  {| heap := [sample_ctx [Some 1%nat] {["A" := 0%nat]};
              sample_ctx [Some 2%nat] {["B" := 1%nat]};
              sample_ctx [] {["C" := 2%nat]}];
     pstore := [sample_pool "A"; sample_pool "B"; sample_pool "C"];
     mgr := mgr fresh |}.

(** One closed context. *)
Definition one_closed : state :=
  {| heap := [close_fields (sample_ctx [] ∅)]; pstore := []; mgr := mgr fresh |}.

(** Every count is between 0 and [M]. *)
Definition counts_within (M : Z) (s : state) : Prop :=
  Forall (λ c, 0 <= referenceCount c <= M) (heap s).

(** Every pool of [c] is allocated and closes without error. *)
Definition pools_close (s : state) (c : MemoryContext) : Prop :=
  ∀ t p, ctx_pools c !! t = Some p →
    ∃ pl, pstore s !! p = Some pl ∧ pool.close_fails pl = false.

(** From [s] to [s'] the pools that close without error keep doing so. *)
Definition pools_stay (s s' : state) : Prop :=
  ∀ p pl, pstore s !! p = Some pl → pool.close_fails pl = false →
    ∃ pl', pstore s' !! p = Some pl' ∧ pool.close_fails pl' = false.

(** "a" was created at instant 0, given one pool and returned. *)
Definition idle_with_pool : state :=
  state_of (ReturnContext (Some 0%nat)
    (state_of (CreatePool "A" {| pool.cfg_invalid := false; pool.cfg_close_fails := false |}
                 (Some 0%nat) taken1))).

(** A context whose only pool refuses to close. *)
Definition stuck : state :=
  {| heap := [sample_ctx [] {["A" := 0%nat]}];
     pstore := [{| pool.pool_type := "A"; pool.idle := []; pool.made := 0;
                   pool.pool_closed := false; pool.close_fails := true |}];
     mgr := mgr fresh |}.

(** A context registered as its own child. *)
Definition self_child : state :=
  {| heap := [sample_ctx [Some 0%nat] ∅]; pstore := []; mgr := mgr fresh |}.

(** * Properties *)

(** ** Elementary facts about the store *)

Lemma alter_last (f : MemoryContext → MemoryContext) (h : list MemoryContext) (c : MemoryContext) :
  alter f (length h) (h ++ [c]) = h ++ [f c].
Proof.
  rewrite alter_app_r_alt by done. by rewrite Nat.sub_diag.
Qed.

Lemma eqb_empty_false (k : string) : k ≠ ""%string → String.eqb k "" = false.
Proof. intros Hk. by apply String.eqb_neq. Qed.

Lemma registry_cache (s : state) (m : gmap string nat) :
  ctxCache (mgr s) = Some m → registry s = m.
Proof. unfold registry. by intros ->. Qed.

(** ** What [Close] may change *)

Lemma evolves_on_refl (P : nat → Prop) (s : state) : evolves_on P s s.
Proof. split; eauto. Qed.

Lemma evolves_on_weaken (P Q : nat → Prop) (s s' : state) :
  (∀ l, P l → Q l) → evolves_on P s s' → evolves_on Q s s'.
Proof.
  intros HPQ [H1 H2 H3 H4]. split; try done.
  intros l c Hl. destruct (H3 l c Hl) as [?|(?&?&?)]; eauto.
Qed.

Lemma evolves_on_trans (P : nat → Prop) (s1 s2 s3 : state) :
  evolves_on P s1 s2 → evolves_on P s2 s3 → evolves_on P s1 s3.
Proof.
  intros [A1 A2 A3 A4] [B1 B2 B3 B4]. split.
  - congruence.
  - congruence.
  - intros l c Hl. destruct (A3 l c Hl) as [H|(HP & Hc & H)].
    + destruct (B3 l c H) as [?|(?&?&?)]; eauto.
    + right. split; [done|]. split; [done|].
      destruct (B3 _ _ H) as [?|(_ & Hcl & _)]; [done|]. by simpl in Hcl.
  - intros p pl Hp. destruct (A4 p pl Hp) as (pl' & Hp' & Hm).
    destruct (B4 p pl' Hp') as (pl'' & Hp'' & Hm'). eauto.
Qed.

Lemma evolves_closed_stays (P : nat → Prop) (s s' : state) (l : nat) :
  evolves_on P s s' → is_closed s l → is_closed s' l.
Proof.
  intros Hev (c & Hl & Hc). destruct (ev_ctx _ _ _ Hev l c Hl) as [?|(_ & ? & _)].
  - by exists c.
  - congruence.
Qed.

Lemma evolves_pool_closed_stays (P : nat → Prop) (s s' : state) (p : nat) :
  evolves_on P s s' → pool_is_closed s p → pool_is_closed s' p.
Proof.
  intros Hev (pl & Hp & Hc). destruct (ev_pool _ _ _ Hev p pl Hp) as (pl' & ? & ?).
  exists pl'. eauto.
Qed.

Lemma evolves_is_child (P : nat → Prop) (s s' : state) (l : nat) :
  evolves_on P s s' → is_child s' l → is_child s l.
Proof.
  intros Hev (p & c' & Hp & Hin).
  assert (is_Some (heap s !! p)) as [c Hc].
  { apply lookup_lt_is_Some. rewrite <- (ev_len _ _ _ Hev). by eapply lookup_lt_Some. }
  destruct (ev_ctx _ _ _ Hev p c Hc) as [H|(_ & _ & H)].
  - exists p, c. split; [done|]. congruence.
  - rewrite Hp in H. injection H as ->. simpl in Hin. by apply elem_of_nil in Hin.
Qed.

(** *** The loop over the pools *)

Lemma pool_Close_closed (pl pl' : pool.Pool) (e : option error) :
  pool.Close pl = (pl', e) →
  (pool.pool_closed pl = true → pool.pool_closed pl' = true) ∧
  (e = None → pool.pool_closed pl' = true).
Proof.
  unfold pool.Close. destruct (pool.close_fails pl); intros [= <- <-]; simpl; split; done.
Qed.

Lemma close_pools_spec (ps : list (string * nat)) (s s' : state) (e : option error) :
  close_pools ps s = Ret (s', e) →
  heap s' = heap s ∧ mgr s' = mgr s ∧ evolves_on (λ _, False) s s' ∧
  (e = None → ∀ t p, (t, p) ∈ ps → pool_is_closed s' p).
Proof.
  revert s. induction ps as [|[t p] ps IH]; intros s; simpl.
  - intros [= <- <-]. split_and!; try done; [apply evolves_on_refl|].
    intros _ t p Hin. by apply elem_of_nil in Hin.
  - destruct (pstore s !! p) as [pl|] eqn:Hp; [|done].
    destruct (pool.Close pl) as [pl' err] eqn:Hcl.
    destruct (pool_Close_closed _ _ _ Hcl) as [Hmono Hnone].
    set (s1 := set_pstore (<[p:=pl']> (pstore s)) s).
    assert (evolves_on (λ _, False) s s1) as Hs1.
    { split; simpl; [done|by rewrite length_insert|by eauto|].
      intros q ql Hq. destruct (decide (p = q)) as [->|Hne].
      - exists pl'. split; [|by rewrite Hp in Hq; injection Hq as <-].
        apply list_lookup_insert_eq. by eapply lookup_lt_Some.
      - exists ql. by rewrite list_lookup_insert_ne. }
    destruct err as [e0|].
    + intros [= <- <-]. split_and!; try done.
    + intros Hrest. destruct (IH _ Hrest) as (Hh & Hm & Hev & Hall).
      split_and!; try done.
      * eapply evolves_on_trans; eauto.
      * intros -> t' p' Hin. apply elem_of_cons in Hin as [[= -> ->]|Hin]; [|by eauto].
        eapply evolves_pool_closed_stays; [exact Hev|].
        exists pl'. split; [|by auto]. simpl.
        apply list_lookup_insert_eq. by eapply lookup_lt_Some.
Qed.

(** *** The loop over the children *)

(** An invariant [I] kept by every call and a postcondition [Post] that
    each successful call establishes for its child and later calls keep. *)
Lemma close_children_loop (closeChild : ptr → state → result (state * option error))
    (I : state → Prop) (Post : ptr → state → Prop) (cs : list ptr) :
  (∀ ch s s' e, ch ∈ cs → I s → closeChild ch s = Ret (s', e) →
     I s' ∧ (e = None → Post ch s') ∧ (∀ ch', Post ch' s → Post ch' s')) →
  ∀ s s' e, I s → close_children closeChild cs s = Ret (s', e) →
     I s' ∧ (∀ ch', Post ch' s → Post ch' s') ∧ (e = None → ∀ ch, ch ∈ cs → Post ch s').
Proof.
  induction cs as [|ch cs IH]; intros Hstep s s' e HI; simpl.
  - intros [= <- <-]. split_and!; [done..|]. intros _ ch Hin. by apply elem_of_nil in Hin.
  - destruct (closeChild ch s) as [[s1 e1]| | |] eqn:Hch; simpl; try done.
    destruct (Hstep ch s s1 e1 ltac:(left) HI Hch) as (HI1 & Hpost & Hkeep).
    destruct e1 as [e1|].
    + intros [= <- <-]. split_and!; done.
    + intros Hrest.
      destruct (IH ltac:(intros ???? Hin; apply Hstep; by right) s1 s' e HI1 Hrest)
        as (HI' & Hkeep' & Hall).
      split_and!; [done|by auto|].
      intros -> ch' Hin. apply elem_of_cons in Hin as [->|Hin]; [|by apply Hall].
      apply Hkeep'. by apply Hpost.
Qed.

Lemma close_children_fuel (closeChild : ptr → state → result (state * option error))
    (I : state → Prop) (cs : list ptr) :
  (∀ ch s, I s → closeChild ch s ≠ OutOfFuel) →
  (∀ ch s s' e, I s → closeChild ch s = Ret (s', e) → I s') →
  ∀ s, I s → close_children closeChild cs s ≠ OutOfFuel.
Proof.
  intros Hne Hkeep. induction cs as [|ch cs IH]; intros s HI; simpl; [done|].
  destruct (closeChild ch s) as [[s1 e1]| | |] eqn:Hch; simpl; try done.
  - destruct e1; [done|]. apply IH. eauto.
  - by apply Hne in Hch.
Qed.

(** *** The cases of one call *)

Lemma Close_fuel_cases (f : nat) (held : list nat) (mc : ptr) (s s' : state) (e : option error) :
  Close_fuel (S f) held mc s = Ret (s', e) →
  ∃ l c, mc = Some l ∧ heap s !! l = Some c ∧ (l ∉ held) ∧
    ((closed c = true ∧ s' = s ∧ e = None) ∨
     (closed c = false ∧
      ∃ s1 e1, close_pools (map_to_list (ctx_pools c)) s = Ret (s1, e1) ∧
        ((is_Some e1 ∧ s' = s1 ∧ e = e1) ∨
         (e1 = None ∧
          ∃ s2 e2, close_children (Close_fuel f (l :: held)) (children c) s1 = Ret (s2, e2) ∧
            ((is_Some e2 ∧ s' = s2 ∧ e = e2) ∨
             (e2 = None ∧ s' = set_heap (alter close_fields l (heap s2)) s2 ∧ e = None)))))).
Proof.
  simpl. destruct mc as [l|]; [|done].
  destruct (heap s !! l) as [c|] eqn:Hl; [|done].
  destruct (decide (l ∈ held)) as [|Hheld]; [done|].
  intros H. exists l, c. split_and!; try done.
  destruct (closed c) eqn:Hc.
  - left. by injection H as <- <-.
  - right. split; [done|].
    destruct (close_pools (map_to_list (ctx_pools c)) s) as [[s1 e1]| | |] eqn:Hp;
      simpl in H; try done.
    exists s1, e1. split; [done|]. destruct e1 as [e1|].
    + left. injection H as <- <-. eauto.
    + right. split; [done|].
      destruct (close_children (Close_fuel f (l :: held)) (children c) s1)
        as [[s2 e2]| | |] eqn:Hch; simpl in H; try done.
      exists s2, e2. split; [done|]. destruct e2 as [e2|].
      * left. injection H as <- <-. eauto.
      * right. by injection H as <- <-.
Qed.

(** A call changes no context its goroutine holds the mutex of, only the
    receiver or contexts that are somebody's children, and leaves the
    manager alone. *)
Lemma Close_fuel_evolves (f : nat) (held : list nat) (mc : ptr) (s s' : state)
    (e : option error) :
  Close_fuel f held mc s = Ret (s', e) →
  mgr s' = mgr s ∧
  evolves_on (λ x, (x ∉ held) ∧ (mc = Some x ∨ is_child s x)) s s'.
Proof.
  revert held mc s s' e. induction f as [|f IH]; intros held mc s s' e; [done|].
  intros H. apply Close_fuel_cases in H as (l & c & -> & Hl & Hheld & H).
  destruct H as [(Hc & -> & ->)|(Hc & s1 & e1 & Hp & H)].
  { split; [done|]. apply evolves_on_refl. }
  apply close_pools_spec in Hp as (Hh1 & Hm1 & Hev1 & _).
  assert (evolves_on (λ x, (x ∉ held) ∧ (Some l = Some x ∨ is_child s x)) s s1) as Hev1'.
  { eapply evolves_on_weaken; [|exact Hev1]. done. }
  destruct H as [(_ & -> & ->)|(-> & s2 & e2 & Hch & H)]; [done|].
  pose (I := λ t : state, mgr t = mgr s ∧
              evolves_on (λ x, (x ∉ held) ∧ x ≠ l ∧ is_child s x) s t).
  assert (I s2) as [Hm2 Hev2].
  { eapply (close_children_loop _ I (λ _ _, True) (children c)); [| |exact Hch].
    - intros ch t t' e' Hin [Hmt Hevt] Hcall.
      destruct (IH _ _ _ _ _ Hcall) as [Hm' Hev']. split; [|done].
      split; [congruence|]. eapply evolves_on_trans; [exact Hevt|].
      eapply evolves_on_weaken; [|exact Hev']. simpl.
      intros x [Hx Hor]. apply not_elem_of_cons in Hx as [Hxl Hx].
      split; [done|]. split; [done|]. destruct Hor as [->|Hor].
      + exists l, c. done.
      + eapply evolves_is_child; eauto.
    - split; [done|]. eapply evolves_on_weaken; [|exact Hev1]. done. }
  assert (evolves_on (λ x, (x ∉ held) ∧ (Some l = Some x ∨ is_child s x)) s s2) as Hev2'.
  { eapply evolves_on_weaken; [|exact Hev2]. intros x (? & ? & ?). auto. }
  destruct H as [(_ & -> & ->)|(_ & -> & ->)]; [done|].
  split; [done|]. destruct Hev2 as [A1 A2 A3 A4]. split; simpl.
  - by rewrite length_alter.
  - done.
  - intros x cx Hx. destruct (decide (x = l)) as [->|Hne].
    + right. split; [by auto|]. rewrite Hl in Hx. injection Hx as <-.
      split; [done|]. rewrite list_lookup_alter_eq.
      destruct (A3 l c Hl) as [->|(( _ & ? & _) & _)]; done.
    + rewrite list_lookup_alter_ne by done.
      destruct (A3 x cx Hx) as [?|((?&?&?)&?&?)]; [by left|]. right. auto.
  - done.
Qed.

(** *** [Close] returns *)

Lemma held_bound (held : list nat) (n : nat) :
  NoDup held → (∀ x, x ∈ held → (x < n)%nat) → (length held ≤ n)%nat.
Proof.
  intros Hnd Hlt. assert (held ⊆+ seq 0 n) as Hsub.
  { apply NoDup_submseteq; [done|]. intros x Hx. apply elem_of_seq.
    specialize (Hlt x Hx). lia. }
  apply submseteq_length in Hsub. by rewrite length_seq in Hsub.
Qed.

Lemma close_pools_fuel (ps : list (string * nat)) (s : state) :
  close_pools ps s ≠ OutOfFuel.
Proof.
  revert s. induction ps as [|[t p] ps IH]; intros s; simpl; [done|].
  destruct (pstore s !! p); [|done]. destruct (pool.Close _) as [pl' [e|]]; [done|]. apply IH.
Qed.

(** With one unit of fuel for every context whose mutex is still free, and
    one more, the model of [Close] never runs out. *)
Lemma Close_fuel_total (f : nat) (held : list nat) (mc : ptr) (s : state) :
  NoDup held → (∀ x, x ∈ held → (x < length (heap s))%nat) →
  (length (heap s) < f + length held)%nat →
  Close_fuel f held mc s ≠ OutOfFuel.
Proof.
  revert held mc s. induction f as [|f IH]; intros held mc s Hnd Hlt Hf.
  { pose proof (held_bound _ _ Hnd Hlt). simpl in Hf. lia. }
  simpl. destruct mc as [l|]; [|done].
  destruct (heap s !! l) as [c|] eqn:Hl; [|done].
  destruct (decide (l ∈ held)) as [|Hheld]; [done|].
  destruct (closed c); [done|].
  destruct (close_pools (map_to_list (ctx_pools c)) s) as [[s1 e1]| | |] eqn:Hp; simpl; try done.
  2:{ by apply close_pools_fuel in Hp. }
  destruct e1 as [e1|]; [done|].
  apply close_pools_spec in Hp as (Hh1 & _).
  assert (close_children (Close_fuel f (l :: held)) (children c) s1 ≠ OutOfFuel) as Hne.
  { apply (close_children_fuel _ (λ t, length (heap t) = length (heap s))).
    - intros ch t Ht. apply IH.
      + by apply NoDup_cons.
      + intros x Hx. rewrite Ht. apply elem_of_cons in Hx as [->|Hx]; [|by auto].
        by eapply lookup_lt_Some.
      + rewrite Ht. simpl. lia.
    - intros ch t t' e' Ht Hcall. apply Close_fuel_evolves in Hcall as [_ Hev].
      rewrite <- Ht. apply (ev_len _ _ _ Hev).
    - by rewrite Hh1. }
  destruct (close_children _ _ _) as [[s2 [e2|]]| | |]; simpl; done.
Qed.

Lemma Close_total (mc : ptr) (s : state) : Close mc s ≠ OutOfFuel.
Proof.
  apply Close_fuel_total; [constructor| |simpl; lia].
  intros x Hx. by apply elem_of_nil in Hx.
Qed.

(** ** The closed-context invariant *)

(** Decides the invariant on a store that is written out. *)
Ltac check_closed_inv :=
  unfold closed_inv; simpl;
  repeat (apply List.Forall_cons;
          [intros Hc; first [discriminate Hc | by vm_compute]|]);
  apply List.Forall_nil.

Lemma closed_ok_close_fields (c : MemoryContext) : closed_ok (close_fields c).
Proof. by intros _. Qed.

Lemma closed_inv_lookup (s : state) (l : nat) (c : MemoryContext) :
  closed_inv s → heap s !! l = Some c → closed_ok c.
Proof. intros Hinv Hl. by eapply Forall_lookup_1. Qed.

Lemma evolves_closed_inv (P : nat → Prop) (s s' : state) :
  evolves_on P s s' → closed_inv s → closed_inv s'.
Proof.
  intros Hev Hinv. apply Forall_lookup_2. intros l c' Hl'.
  assert (is_Some (heap s !! l)) as [c Hl].
  { apply lookup_lt_is_Some. rewrite <- (ev_len _ _ _ Hev). by eapply lookup_lt_Some. }
  destruct (ev_ctx _ _ _ Hev l c Hl) as [H|(_ & _ & H)]; rewrite Hl' in H; injection H as ->.
  - by eapply closed_inv_lookup.
  - apply closed_ok_close_fields.
Qed.

(** ** What a successful [Close] leaves closed *)




(** ** [Close] of a context *)


Lemma tree3_closed_inv : closed_inv tree3.
Proof. check_closed_inv. Qed.


(** C8: [Close] on a context that is already closed returns no error and
    leaves the whole state as it was. *)
Theorem Close_idempotent (l : nat) (c : MemoryContext) (s : state) :
  heap s !! l = Some c → closed c = true → Close (Some l) s = Ret (s, None).
Proof.
  intros Hl Hc. unfold Close. simpl. rewrite Hl.
  destruct (decide (l ∈ [])) as [Hin|_]; [by apply elem_of_nil in Hin|]. by rewrite Hc.
Qed.

Lemma Close_idempotent_witness : Close (Some 0%nat) one_closed = Ret (one_closed, None).
Proof. apply (Close_idempotent 0 (close_fields (sample_ctx [] ∅)) one_closed); reflexivity. Defined.

(** ** The manager: sharing, returning and closing *)

Lemma wrap32_small (z : Z) : - 2 ^ 31 <= z < 2 ^ 31 → wrap32 z = z.
Proof. intros Hz. unfold wrap32. rewrite Z.mod_small; lia. Qed.

Lemma GetOrCreateContext_new (k : string) (cfg : MemoryContextConfig) (now : Z)
    (s : state) (m : gmap string nat) :
  k ≠ ""%string → ctxCache (mgr s) = Some m → m !! k = None →
  GetOrCreateContext k cfg now s =
    Ret ({| heap := heap s ++ [created cfg now]; pstore := pstore s;
            mgr := set_cache (Some (<[k := length (heap s)]> m)) (mgr s) |},
         (Some (length (heap s)), false, None)).
Proof.
  intros Hk Hcache Hnone. unfold GetOrCreateContext.
  rewrite (eqb_empty_false _ Hk), (registry_cache _ _ Hcache), Hnone. simpl.
  by rewrite alter_last, Hcache.
Qed.

Lemma GetOrCreateContext_full (k : string) (cfg : MemoryContextConfig) (now : Z)
    (s : state) (cc : ContextConfig) (l : nat) (ctx : MemoryContext) :
  k ≠ ""%string → config (mgr s) = Some cc →
  registry s !! k = Some l → heap s !! l = Some ctx → closed ctx = false →
  0 < MaxReferences cc → MaxReferences cc <= referenceCount ctx →
  GetOrCreateContext k cfg now s = Ret (s, (None, false, Some ErrMaxReferencesReached)).
Proof.
  intros Hk Hcfg Hreg Hl Hc Hpos Hmax. unfold GetOrCreateContext.
  rewrite (eqb_empty_false _ Hk), Hreg, Hl, Hc, Hcfg.
  destruct (Z.ltb_spec 0 (MaxReferences cc)); [|lia].
  destruct (Z.leb_spec (MaxReferences cc) (referenceCount ctx)); [|lia]. done.
Qed.

Lemma GetOrCreateContext_share (k : string) (cfg : MemoryContextConfig) (now : Z)
    (s : state) (cc : ContextConfig) (l : nat) (ctx : MemoryContext) :
  k ≠ ""%string → config (mgr s) = Some cc →
  registry s !! k = Some l → heap s !! l = Some ctx → closed ctx = false →
  ¬ (0 < MaxReferences cc ∧ MaxReferences cc <= referenceCount ctx) →
  GetOrCreateContext k cfg now s =
    Ret (set_heap (<[l := with_count (wrap32 (referenceCount ctx + 1)) ctx]> (heap s)) s,
         (Some l, true, None)).
Proof.
  intros Hk Hcfg Hreg Hl Hc Hno. unfold GetOrCreateContext.
  rewrite (eqb_empty_false _ Hk), Hreg, Hl, Hc, Hcfg.
  destruct (Z.ltb_spec 0 (MaxReferences cc)); [|done].
  destruct (Z.leb_spec (MaxReferences cc) (referenceCount ctx)); [|done].
  exfalso. apply Hno. lia.
Qed.

(** C3: [GetOrCreateContext] on a manager that has its registry and its
    configuration.  The empty type is refused; an unseen type gets a new
    context with count 1 and [active] set, stored under the type; a closed
    entry is refused; an entry at a positive ceiling is refused; any other
    entry has its count incremented (as an [int32]) and is handed back. *)
Theorem GetOrCreateContext_spec (k : string) (cfg : MemoryContextConfig) (now : Z)
    (s : state) (m : gmap string nat) (cc : ContextConfig) :
  ctxCache (mgr s) = Some m → config (mgr s) = Some cc →
  (k = ""%string →
     GetOrCreateContext k cfg now s = Ret (s, (None, false, Some ErrInvalidContextType))) ∧
  (k ≠ ""%string → m !! k = None →
     GetOrCreateContext k cfg now s =
       Ret ({| heap := heap s ++
                 [{| active := true; closed := false; referenceCount := 1;
                     contextType := ContextType cfg; parent := Parent cfg;
                     children := []; pools := Some ∅;
                     createdAt := now; lastUsed := now |}];
               pstore := pstore s;
               mgr := set_cache (Some (<[k := length (heap s)]> m)) (mgr s) |},
            (Some (length (heap s)), false, None))) ∧
  (k ≠ ""%string → ∀ l ctx, m !! k = Some l → heap s !! l = Some ctx →
     (closed ctx = true →
        GetOrCreateContext k cfg now s = Ret (s, (None, false, Some ErrContextClosed))) ∧
     (closed ctx = false → 0 < MaxReferences cc → MaxReferences cc <= referenceCount ctx →
        GetOrCreateContext k cfg now s = Ret (s, (None, false, Some ErrMaxReferencesReached))) ∧
     (closed ctx = false → ¬ (0 < MaxReferences cc ∧ MaxReferences cc <= referenceCount ctx) →
        GetOrCreateContext k cfg now s =
          Ret (set_heap (<[l := with_count (wrap32 (referenceCount ctx + 1)) ctx]> (heap s)) s,
               (Some l, true, None)) ∧
        (- 2 ^ 31 <= referenceCount ctx < 2 ^ 31 - 1 →
           wrap32 (referenceCount ctx + 1) = referenceCount ctx + 1))).
Proof.
  intros Hcache Hcfg. pose proof (registry_cache _ _ Hcache) as Hreg. split_and!.
  - intros ->. done.
  - intros Hk Hnone. by apply GetOrCreateContext_new.
  - intros Hk l ctx Hm Hl. rewrite <- Hreg in Hm. split_and!.
    + intros Hc. unfold GetOrCreateContext. by rewrite (eqb_empty_false _ Hk), Hm, Hl, Hc.
    + intros Hc Hpos Hmax. by eapply GetOrCreateContext_full.
    + intros Hc Hno. split; [by eapply GetOrCreateContext_share|].
      intros Hr. apply wrap32_small. lia.
Qed.

Lemma GetOrCreateContext_spec_witness :
  GetOrCreateContext "a" cfgA 7 fresh =
    Ret ({| heap := [{| active := true; closed := false; referenceCount := 1;
                        contextType := "a"; parent := None; children := [];
                        pools := Some ∅; createdAt := 7; lastUsed := 7 |}];
            pstore := [];
            mgr := set_cache (Some (<["a" := 0%nat]> ∅)) (mgr fresh) |},
         (Some 0%nat, false, None)).
Proof.
  destruct (GetOrCreateContext_spec "a" cfgA 7 fresh ∅ newDefaultConfig) as (_ & H & _);
    [reflexivity|reflexivity|].
  apply H; [discriminate|reflexivity].
Defined.

Lemma close_pools_ok (ps : list (string * nat)) (s : state) :
  (∀ t p, (t, p) ∈ ps → ∃ pl, pstore s !! p = Some pl ∧ pool.close_fails pl = false) →
  ∃ s1, close_pools ps s = Ret (s1, None) ∧ heap s1 = heap s.
Proof.
  revert s. induction ps as [|[t p] ps IH]; intros s Hok; simpl; [by exists s|].
  destruct (Hok t p ltac:(left)) as (pl & Hp & Hf). rewrite Hp.
  unfold pool.Close. rewrite Hf.
  destruct (IH (set_pstore (<[p:={| pool.pool_type := pool.pool_type pl; pool.idle := [];
                                    pool.made := pool.made pl; pool.pool_closed := true;
                                    pool.close_fails := false |}]> (pstore s)) s))
    as (s1 & Hs1 & Hh).
  - intros t' p' Hin. simpl. destruct (decide (p = p')) as [<-|Hne].
    + eexists. split; [apply list_lookup_insert_eq; by eapply lookup_lt_Some|done].
    + rewrite list_lookup_insert_ne by done. apply (Hok t'). by right.
  - exists s1. by split.
Qed.

(** A context without children whose pools close without error is closed
    by one call. *)
Lemma Close_leaf (l : nat) (c : MemoryContext) (s : state) :
  heap s !! l = Some c → closed c = false → children c = [] →
  (∀ t p, ctx_pools c !! t = Some p →
     ∃ pl, pstore s !! p = Some pl ∧ pool.close_fails pl = false) →
  ∃ s1, Close (Some l) s = Ret (s1, None).
Proof.
  intros Hl Hc Hch Hok. unfold Close. simpl. rewrite Hl, Hc, Hch.
  destruct (decide (l ∈ [])) as [Hin|_]; [by apply elem_of_nil in Hin|].
  destruct (close_pools_ok (map_to_list (ctx_pools c)) s) as (s1 & -> & _).
  { intros t p Hin. apply elem_of_map_to_list in Hin. eauto. }
  simpl. eauto.
Qed.

Lemma Close_fuel_is_closed (l : nat) (s s' : state) :
  Close (Some l) s = Ret (s', None) → is_closed s' l.
Proof.
  intros H. unfold Close in H. apply Close_fuel_cases in H as (l' & c & [= <-] & Hl & _ & H).
  destruct H as [(Hc & -> & _)|(Hc & s1 & e1 & Hp & H)]; [by exists c|].
  destruct H as [([e' ->] & _ & [=])|(-> & s2 & e2 & Hch & H)].
  destruct H as [([e' ->] & _ & [=])|(_ & -> & _)].
  apply close_pools_spec in Hp as (Hh1 & _).
  assert (length (heap s2) = length (heap s1)) as Hlen.
  { apply (close_children_loop _ (λ t, length (heap t) = length (heap s1)) (λ _ _, True)
             (children c)) in Hch as [Hlen _]; [done| |done].
    intros ch t t' e' _ Ht Hcall. apply Close_fuel_evolves in Hcall as [_ Hev].
    split; [|done]. rewrite <- Ht. apply (ev_len _ _ _ Hev). }
  assert (is_Some (heap s2 !! l)) as [c2 Hc2].
  { apply lookup_lt_is_Some. rewrite Hlen, Hh1. by eapply lookup_lt_Some. }
  exists (close_fields c2). simpl. by rewrite list_lookup_alter_eq, Hc2.
Qed.



(** ** Shutdown *)

Lemma ContextManager_Close_done (s s' : state) :
  ContextManager_Close s = Ret (s', None) →
  mgr s' = {| ctxCache := None; config := None; stopChan := ChanNil; cm_closed := true |}.
Proof.
  unfold ContextManager_Close. destruct (cm_closed (mgr s)); [done|].
  destruct (config (mgr s)) as [cc|]; [|done].
  destruct (if 0 <? CleanupInterval cc then StopCleanup s else Ret s) as [s1| | |];
    simpl; try done.
  destruct (close_all _ s1) as [[s2 [e|]]| | |]; simpl; try done.
  by intros [= <-].
Qed.

(** C7: what the operations of the manager do once its [Close] has
    succeeded.  A second [Close] reports [ErrContextManagerClosed].
    [GetOrCreateContext] with a type that is not empty does not return: it
    panics on the write to the registry, which is nil by then.
    [CloseContext] reports [ErrContextNotFound], and the cleanup loop finds
    nothing to visit. *)
Theorem after_shutdown (s s' : state) (k : string) (cfg : MemoryContextConfig)
    (now : Z) (locked : bool) :
  ContextManager_Close s = Ret (s', None) →
  ContextManager_Close s' = Ret (s', Some ErrContextManagerClosed) ∧
  (k ≠ ""%string → GetOrCreateContext k cfg now s' = Panic) ∧
  CloseContext k locked s' = Ret (s', Some ErrContextNotFound) ∧
  cleanupIdleContexts now s' = Ret s'.
Proof.
  intros Hdone. apply ContextManager_Close_done in Hdone as Hm. split_and!.
  - unfold ContextManager_Close. by rewrite Hm.
  - intros Hk. unfold GetOrCreateContext, registry. rewrite (eqb_empty_false _ Hk), Hm.
    simpl. rewrite lookup_empty. simpl. by rewrite Hm.
  - unfold CloseContext, registry. rewrite Hm. simpl. by rewrite lookup_empty.
  - unfold cleanupIdleContexts, registry. rewrite Hm. simpl. by rewrite map_to_list_empty.
Qed.

Lemma after_shutdown_witness :
  ContextManager_Close shut_down = Ret (shut_down, Some ErrContextManagerClosed) ∧
  GetOrCreateContext "a" cfgA 0 shut_down = Panic.
Proof.
  destruct (after_shutdown fresh shut_down "a" cfgA 0 false) as (H1 & H2 & _).
  - reflexivity.
  - split; [exact H1|]. apply H2. discriminate.
Defined.

(** ** The active flag *)

(** What [ReturnContext] leaves: [active] says whether the count is
    positive. *)
Lemma ReturnContext_active (l : nat) (s s' : state) :
  ReturnContext (Some l) s = Ret (s', None) →
  ∃ c', heap s' !! l = Some c' ∧ active c' = (0 <? referenceCount c').
Proof.
  unfold ReturnContext. destruct (heap s !! l) as [c|] eqn:Hl; [|done].
  destruct (closed c); [done|]. intros [= <-]. eexists. simpl. split.
  - apply list_lookup_insert_eq. by eapply lookup_lt_Some.
  - done.
Qed.

(** C1, on the sequence take, return, take: the third call hands back the
    same context with [wasExisting = true] and count 1, and [active] is
    still [false], so that [ValidateContext] rejects the handle. *)
Theorem share_leaves_inactive :
  GetOrCreateContext "a" cfgA 0 fresh = Ret (taken1, (Some 0%nat, false, None)) ∧
  ReturnContext (Some 0%nat) taken1 = Ret (returned1, None) ∧
  GetOrCreateContext "a" cfgA 1 returned1 = Ret (retaken1, (Some 0%nat, true, None)) ∧
  registry retaken1 !! "a" = Some 0%nat ∧
  (referenceCount <$> heap retaken1 !! 0%nat) = Some 1 ∧
  (active <$> heap retaken1 !! 0%nat) = Some false ∧
  ValidateContext (Some 0%nat) retaken1 = Ret false.
Proof. split_and!; reflexivity. Qed.

(** ** The idle timestamp *)

(** Sharing at instant 200 a context created at instant 100 leaves its
    [lastUsed] at 100, and so does returning it afterwards. *)
Lemma lastUsed_stale_after_share :
  GetOrCreateContext "a" cfgA 200 created100 = Ret (shared200, (Some 0%nat, true, None)) ∧
  (lastUsed <$> heap shared200 !! 0%nat) = Some 100 ∧
  (lastUsed <$> heap shared200 !! 0%nat) ≠ Some 200 ∧
  (lastUsed <$> heap (state_of (ReturnContext (Some 0%nat) shared200)) !! 0%nat) = Some 100.
Proof. split_and!; [reflexivity|reflexivity|discriminate|reflexivity]. Qed.

Lemma lookup_insert_field {A : Type} (f : MemoryContext → A) (h : list MemoryContext)
    (l x : nat) (c c' : MemoryContext) :
  h !! l = Some c → f c' = f c → f <$> (<[l := c']> h) !! x = f <$> h !! x.
Proof.
  intros Hl Hf. destruct (decide (l = x)) as [->|Hne].
  - rewrite list_lookup_insert_eq by by eapply lookup_lt_Some. rewrite Hl. simpl. by rewrite Hf.
  - by rewrite list_lookup_insert_ne.
Qed.

Lemma GetOrCreateContext_lastUsed (k : string) (cfg : MemoryContextConfig) (now : Z)
    (s s' : state) (r : ptr * bool * option error) (l : nat) (c : MemoryContext) :
  heap s !! l = Some c → GetOrCreateContext k cfg now s = Ret (s', r) →
  (lastUsed <$> heap s' !! l) = Some (lastUsed c) ∧
  (∀ p, r = (Some p, false, None) → (lastUsed <$> heap s' !! p) = Some now).
Proof.
  intros Hl. assert ((lastUsed <$> heap s !! l) = Some (lastUsed c)) as Hlu by by rewrite Hl.
  unfold GetOrCreateContext.
  destruct (String.eqb k ""); [intros [= <- <-]; by split|].
  destruct (registry s !! k) as [x|] eqn:Hk.
  - destruct (heap s !! x) as [cx|] eqn:Hx; [|done].
    destruct (closed cx); [intros [= <- <-]; by split|].
    destruct (config (mgr s)) as [cc|]; [|done].
    destruct (_ && _); intros [= <- <-]; (split; [|done]); [done|]. simpl.
    by rewrite (lookup_insert_field lastUsed _ _ _ _ _ Hx).
  - simpl. rewrite alter_last. destruct (ctxCache (mgr s)); [|done].
    intros [= <- <-]. simpl. split.
    + by rewrite lookup_app_l by by eapply lookup_lt_Some.
    + intros p [= <-]. by rewrite list_lookup_middle.
Qed.

Lemma ReturnContext_lastUsed (ctx : ptr) (s s' : state) (e : option error) (l : nat)
    (c : MemoryContext) :
  heap s !! l = Some c → ReturnContext ctx s = Ret (s', e) →
  (lastUsed <$> heap s' !! l) = Some (lastUsed c).
Proof.
  intros Hl. assert ((lastUsed <$> heap s !! l) = Some (lastUsed c)) as Hlu by by rewrite Hl.
  unfold ReturnContext. destruct ctx as [x|]; [|by intros [= <- <-]].
  destruct (heap s !! x) as [cx|] eqn:Hx; [|done].
  destruct (closed cx); intros [= <- <-]; [done|]. simpl.
  by rewrite (lookup_insert_field lastUsed _ _ _ _ _ Hx).
Qed.

Lemma evolves_lastUsed (P : nat → Prop) (s s' : state) (l : nat) (c : MemoryContext) :
  evolves_on P s s' → heap s !! l = Some c → (lastUsed <$> heap s' !! l) = Some (lastUsed c).
Proof.
  intros Hev Hl. destruct (ev_ctx _ _ _ Hev l c Hl) as [->|(_ & _ & ->)]; done.
Qed.

Lemma Acquire_heap (t : string) (mm : ptr) (s s' : state) (o : option pool.Obj) :
  Acquire t mm s = Ret (s', o) → heap s' = heap s.
Proof.
  unfold Acquire. destruct mm as [x|]; [|done].
  destruct (heap s !! x) as [cx|]; [|done].
  destruct (closed cx); [by intros [= <- <-]|].
  destruct (ctx_pools cx !! t) as [p|]; [|by intros [= <- <-]].
  destruct (pstore s !! p) as [pl|]; [|done].
  destruct (pool.Get pl). by intros [= <- <-].
Qed.

Lemma Release_heap (t : string) (obj : pool.Obj) (mm : ptr) (s s' : state) (b : bool) :
  Release t obj mm s = Ret (s', b) → heap s' = heap s.
Proof.
  unfold Release. destruct mm as [x|]; [|done].
  destruct (heap s !! x) as [cx|]; [|done].
  destruct (closed cx); [by intros [= <- <-]|].
  destruct (ctx_pools cx !! t) as [p|]; [|by intros [= <- <-]].
  destruct (negb _); [by intros [= <- <-]|].
  destruct (pstore s !! p) as [pl|]; [|done]. by intros [= <- <-].
Qed.

(** ** The idle reaper *)

Lemma CloseContext_effect (k : string) (locked : bool) (s s' : state) (e : option error)
    (l : nat) :
  registry s !! k = Some l → CloseContext k locked s = Ret (s', e) →
  evolves_on (λ x, x = l ∨ is_child s x) s s' ∧
  config (mgr s') = config (mgr s) ∧
  (∀ k', k' ≠ k → registry s' !! k' = registry s !! k') ∧
  (∀ k' l', registry s' !! k' = Some l' → registry s !! k' = Some l') ∧
  (s' = s ∨ ∃ c, heap s !! l = Some c ∧ referenceCount c <= 0).
Proof.
  intros Hk. unfold CloseContext. rewrite Hk.
  destruct (heap s !! l) as [c|] eqn:Hl; [|done].
  destruct (Z.ltb_spec 0 (referenceCount c)) as [Hpos|Hle].
  { intros [= <- <-]. split_and!; auto. apply evolves_on_refl. }
  destruct (Close (Some l) s) as [[s1 e1]| | |] eqn:Hclose; simpl; try done.
  unfold Close in Hclose. apply Close_fuel_evolves in Hclose as [Hm Hev].
  assert (evolves_on (λ x, x = l ∨ is_child s x) s s1) as Hev'.
  { eapply evolves_on_weaken; [|exact Hev]. intros x [_ [[= ->]|?]]; auto. }
  destruct e1 as [e1|]; intros [= <- <-].
  - split_and!; [done|by rewrite Hm|unfold registry; by rewrite Hm|
                 unfold registry; by rewrite Hm|right; eauto].
  - split_and!.
    + destruct Hev' as [A1 A2 A3 A4]. by split.
    + simpl. by rewrite Hm.
    + intros k' Hk'. unfold registry. simpl. rewrite Hm.
      destruct (ctxCache (mgr s)); simpl; [|done]. by apply lookup_delete_ne.
    + intros k' l'. unfold registry. simpl. rewrite Hm.
      destruct (ctxCache (mgr s)); simpl; [|done].
      intros H. by apply lookup_delete_Some in H as [_ H].
    + right. eauto.
Qed.

Lemma cleanup_visit_spec (now : Z) (k0 : string) (l0 : nat) (s s1 : state) :
  top_level_roots s → registry s !! k0 = Some l0 →
  cleanup_visit now (k0, l0) s = Ret s1 →
  top_level_roots s1 ∧ config (mgr s1) = config (mgr s) ∧
  (∀ k l, k ≠ k0 → registry s !! k = Some l →
     registry s1 !! k = Some l ∧ ∀ c, heap s !! l = Some c → heap s1 !! l = Some c) ∧
  (∀ c, heap s !! l0 = Some c → kept s1 k0 l0 c ∨ reapable s now c).
Proof.
  intros [Hroot Hinj] Hk0. unfold cleanup_visit.
  destruct (heap s !! l0) as [c0|] eqn:Hl0; [|done].
  assert (s1 = s → top_level_roots s1 ∧ config (mgr s1) = config (mgr s) ∧
    (∀ k l, k ≠ k0 → registry s !! k = Some l →
       registry s1 !! k = Some l ∧ ∀ c, heap s !! l = Some c → heap s1 !! l = Some c) ∧
    (∀ c, Some c0 = Some c → kept s1 k0 l0 c ∨ reapable s now c)) as Hsame.
  { intros ->. split_and!; [by split|done|by intros ????|].
    intros c [= <-]. by left. }
  destruct (active c0) eqn:Hact; [intros [= <-]; by apply Hsame|].
  destruct (config (mgr s)) as [cc|] eqn:Hcfg; [|done].
  destruct (Z.ltb_spec (MaxIdleTime cc) (time_Since now (lastUsed c0))) as [Hidle|];
    [|intros [= <-]; by apply Hsame].
  destruct (CloseContext k0 true s) as [[s' e]| | |] eqn:Hclose; simpl; try done.
  intros [= <-].
  destruct (CloseContext_effect _ _ _ _ _ _ Hk0 Hclose) as (Hev & Hc & Hne & Hsub & Hor).
  split_and!.
  - split.
    + intros k l Hk Hchild. apply (Hroot k l); [by apply Hsub|].
      by eapply evolves_is_child.
    + intros k k' l Hk Hk'. eapply Hinj; by apply Hsub.
  - by rewrite Hc.
  - intros k l Hk Hreg. split; [by rewrite Hne|]. intros c Hl.
    destruct (ev_ctx _ _ _ Hev l c Hl) as [?|([->|Hchild] & _)]; [done| |].
    + destruct Hk. by eapply Hinj.
    + by destruct (Hroot k l).
  - intros c [= <-]. destruct Hor as [->|(c & Hc0 & Hle)].
    + by left.
    + right. rewrite Hl0 in Hc0. injection Hc0 as <-. exists cc. by rewrite <- Hcfg.
Qed.

Lemma cleanup_loop_spec (now : Z) (entries : list (string * nat)) (s s' : state) :
  NoDup entries.*1 → (∀ k l, (k, l) ∈ entries → registry s !! k = Some l) →
  top_level_roots s → cleanup_loop now entries s = Ret s' →
  ∀ k l c, registry s !! k = Some l → heap s !! l = Some c →
    kept s' k l c ∨ reapable s now c.
Proof.
  revert s. induction entries as [|[k0 l0] entries IH]; intros s Hnd Hin Hroots Hloop.
  { injection Hloop as <-. intros k l c Hk Hl. by left. }
  change (cleanup_visit now (k0, l0) s ≫= cleanup_loop now entries = Ret s') in Hloop.
  destruct (cleanup_visit now (k0, l0) s) as [s1| | |] eqn:Hvisit; try done.
  simpl in Hloop. apply NoDup_cons in Hnd as [Hk0 Hnd].
  destruct (cleanup_visit_spec _ _ _ _ _ Hroots (Hin k0 l0 ltac:(left)) Hvisit)
    as (Hroots1 & Hcfg & Hother & Hself).
  assert (∀ k l c, kept s1 k l c → kept s' k l c ∨ reapable s now c) as Hnext.
  { intros k l c [Hk Hl].
    destruct (IH s1 Hnd) with (k := k) (l := l) (c := c) as [?|(cc & Hcc & ?)]; try done.
    - intros k' l' Hin'. assert (k' ≠ k0) as Hne.
      { intros ->. apply Hk0. apply list_elem_of_fmap. by exists (k0, l'). }
      apply Hother; [done|]. apply Hin. by right.
    - by left.
    - right. exists cc. by rewrite <- Hcfg. }
  intros k l c Hk Hl. destruct (decide (k = k0)) as [->|Hne].
  - rewrite (Hin k0 l0 ltac:(left)) in Hk. injection Hk as <-.
    destruct (Hself c Hl) as [?|?]; [by apply Hnext|by right].
  - apply Hnext. destruct (Hother k l Hne Hk) as [? Hh]. split; [done|by apply Hh].
Qed.

(** C2 as stated fails: a registered context that is also a child of
    another registered context is closed with its parent.  Here "b" is
    active with count 1 and is a child of the idle "a"; a run of the
    cleanup routine closes "a", with it "b", and then removes the entry of
    "b" as well.  Visiting "b" before "a" leaves the entry but closes the
    context all the same. *)
Lemma reaper_closes_referenced_child_counterexample :
  registry nested_registered !! "b" = Some 1%nat ∧
  (referenceCount <$> heap nested_registered !! 1%nat) = Some 1 ∧
  (active <$> heap nested_registered !! 1%nat) = Some true ∧
  (∃ s', cleanupIdleContexts 3600000000000 nested_registered = Ret s' ∧
         registry s' !! "b" = None ∧
         (closed <$> heap s' !! 1%nat) = Some true) ∧
  (∃ s', cleanup_loop 3600000000000 [("b"%string, 1%nat); ("a"%string, 0%nat)]
           nested_registered = Ret s' ∧
         registry s' !! "b" = Some 1%nat ∧
         (closed <$> heap s' !! 1%nat) = Some true).
Proof.
  split_and!; [reflexivity..| |]; eexists; split_and!; reflexivity.
Qed.

(** C2, amended: one run of the cleanup routine over a registry whose
    contexts are roots, one per key.  Every registered context either
    keeps its entry and is exactly as it was, or it was not active, had
    been idle for longer than [MaxIdleTime] and had no reference left; so
    a context whose count is positive keeps its entry and is not closed,
    however old its [lastUsed] is. *)
Theorem reaper_spares_active_and_referenced (now : Z) (s s' : state) :
  top_level_roots s → cleanupIdleContexts now s = Ret s' →
  ∀ k l c, registry s !! k = Some l → heap s !! l = Some c →
    (kept s' k l c ∨ reapable s now c) ∧
    (0 < referenceCount c → kept s' k l c).
Proof.
  intros Hroots Hrun k l c Hk Hl.
  assert (kept s' k l c ∨ reapable s now c) as Hor.
  { eapply (cleanup_loop_spec now (map_to_list (registry s))); eauto.
    - apply NoDup_fst_map_to_list.
    - intros k' l'. apply elem_of_map_to_list. }
  split; [done|]. intros Hpos. destruct Hor as [?|(cc & _ & _ & _ & Hle)]; [done|lia].
Qed.

Lemma idle_and_busy_roots : top_level_roots idle_and_busy.
Proof.
  assert (registry idle_and_busy = <["b" := 1%nat]> (<["a" := 0%nat]> ∅)) as Hreg
    by reflexivity.
  split.
  - intros k l _ (p & c & Hp & Hin).
    destruct p as [|[|p]]; simpl in Hp; [| |done]; injection Hp as <-; simpl in Hin;
      by apply elem_of_nil in Hin.
  - intros k k' l. rewrite Hreg. rewrite !lookup_insert.
    repeat case_decide; subst; rewrite ?lookup_empty; congruence.
Qed.

(** An hour later the reaper removes "a" and leaves "b". *)
Lemma reaper_spares_active_and_referenced_witness :
  registry (match cleanupIdleContexts 3600000000000 idle_and_busy with
            | Ret s' => s'
            | _ => empty_state
            end) !! "b" = Some 1%nat.
Proof.
  destruct (reaper_spares_active_and_referenced 3600000000000 idle_and_busy
              (match cleanupIdleContexts 3600000000000 idle_and_busy with
               | Ret s' => s'
               | _ => empty_state
               end)
              idle_and_busy_roots eq_refl "b" 1%nat
              (with_count 1 (with_active true
                 {| active := false; closed := false; referenceCount := 0;
                    contextType := "b"; parent := None; children := [];
                    pools := Some ∅; createdAt := 0; lastUsed := 0 |}))
              eq_refl eq_refl) as [_ H].
  apply H. reflexivity.
Defined.

Example reaper_removes_idle :
  registry (match cleanupIdleContexts 3600000000000 idle_and_busy with
            | Ret s' => s'
            | _ => empty_state
            end) !! "a" = None.
Proof. reflexivity. Qed.

(** ** Closed contexts own nothing *)

Lemma fmap_Ret {A B : Type} (f : A → B) (r : result A) (b : B) :
  f <$> r = Ret b → ∃ a, r = Ret a ∧ b = f a.
Proof. destruct r; simpl; try done. intros [= <-]. eauto. Qed.

Lemma closed_inv_heap_eq (s s' : state) : heap s' = heap s → closed_inv s → closed_inv s'.
Proof. unfold closed_inv. by intros ->. Qed.

Lemma closed_inv_insert (s : state) (l : nat) (c : MemoryContext) :
  closed_inv s → closed c = false → closed_inv (set_heap (<[l := c]> (heap s)) s).
Proof.
  intros Hinv Hc. unfold closed_inv. simpl. apply Forall_insert; [done|]. intros H. congruence.
Qed.

Lemma closed_inv_alloc (s : state) (cfg : MemoryContextConfig) (now : Z) :
  closed_inv s → closed_inv (NewMemoryContext cfg now s).1.
Proof.
  intros Hinv. unfold closed_inv. simpl. apply Forall_app. split; [done|].
  apply Forall_singleton. by intros H.
Qed.

Lemma CloseContext_evolves (k : string) (locked : bool) (s s' : state) (e : option error) :
  CloseContext k locked s = Ret (s', e) → evolves s s'.
Proof.
  unfold CloseContext. destruct (registry s !! k) as [l|]; [|intros [= <- <-]; apply evolves_on_refl].
  destruct (heap s !! l) as [c|]; [|done].
  destruct (0 <? referenceCount c); [intros [= <- <-]; apply evolves_on_refl|].
  destruct (Close (Some l) s) as [[s1 e1]| | |] eqn:Hclose; simpl; try done.
  apply Close_fuel_evolves in Hclose as [_ Hev].
  apply (evolves_on_weaken _ (λ _, True)) in Hev; [|done].
  destruct e1; intros [= <- <-]; [done|]. destruct Hev. by split.
Qed.

Lemma cleanup_loop_evolves (now : Z) (entries : list (string * nat)) (s s' : state) :
  cleanup_loop now entries s = Ret s' → evolves s s'.
Proof.
  revert s. induction entries as [|[k l] entries IH]; intros s Hloop.
  { injection Hloop as <-. apply evolves_on_refl. }
  change (cleanup_visit now (k, l) s ≫= cleanup_loop now entries = Ret s') in Hloop.
  destruct (cleanup_visit now (k, l) s) as [s1| | |] eqn:Hvisit; try done.
  simpl in Hloop. eapply evolves_on_trans; [|by apply IH].
  unfold cleanup_visit in Hvisit. destruct (heap s !! l) as [c|]; [|done].
  destruct (active c); [injection Hvisit as <-; apply evolves_on_refl|].
  destruct (config (mgr s)) as [cc|]; [|done].
  destruct (_ <? _); [|injection Hvisit as <-; apply evolves_on_refl].
  destruct (CloseContext k true s) as [[s2 e]| | |] eqn:Hclose; simpl in Hvisit; try done.
  injection Hvisit as <-. by eapply CloseContext_evolves.
Qed.

Lemma close_all_evolves (keys : list string) (s s' : state) (e : option error) :
  close_all keys s = Ret (s', e) → evolves s s'.
Proof.
  revert s. induction keys as [|k keys IH]; intros s Hall.
  { injection Hall as <- <-. apply evolves_on_refl. }
  simpl in Hall.
  destruct (CloseContext k false s) as [[s1 e1]| | |] eqn:Hclose; simpl in Hall; try done.
  apply CloseContext_evolves in Hclose. destruct e1.
  - by injection Hall as <- <-.
  - eapply evolves_on_trans; [done|by apply IH].
Qed.

(** [CreateChild] returns only on a closed receiver. *)
Lemma CreateChild_returns (now : Z) (mc : ptr) (s s' : state) (e : option error) :
  CreateChild now mc s = Ret (s', e) → s' = s ∧ e = Some ErrContextClosed.
Proof.
  unfold CreateChild. destruct mc as [l|]; [|done].
  destruct (heap s !! l) as [c|] eqn:Hl; [|done].
  destruct (closed c); [by intros [= <- <-]|]. simpl.
  rewrite lookup_app_l by by eapply lookup_lt_Some. rewrite Hl.
  destruct (decide (l ∈ [l])) as [|Hne]; [done|]. destruct Hne. by left.
Qed.

(** C9 as stated fails: [RegisterChild] on a closed context appends the
    child, so a closed context has a child again. *)
Lemma RegisterChild_on_closed_counterexample :
  closed_inv stale_handle ∧
  (closed <$> heap stale_handle !! 0%nat) = Some true ∧
  ∃ s', RegisterChild (Some 1%nat) (Some 0%nat) stale_handle = Ret s' ∧
        (closed <$> heap s' !! 0%nat) = Some true ∧
        (children <$> heap s' !! 0%nat) = Some [Some 1%nat] ∧
        ¬ closed_inv s'.
Proof.
  split; [check_closed_inv|]. split; [reflexivity|].
  eexists. split; [reflexivity|]. split; [reflexivity|]. split; [reflexivity|].
  intros Hinv. apply Forall_cons_1 in Hinv as [H0 _].
  destruct (H0 eq_refl) as (_ & Hch & _). discriminate Hch.
Qed.

(** C9, amended: every operation keeps the invariant that a closed context
    has no pools, no children, count 0 and [active = false], except
    [RegisterChild] called on a closed receiver.  On a closed receiver
    [CreateChild] and [CreatePool] report [ErrContextClosed] and change
    nothing. *)
Theorem closed_inv_preserved (o : op) (s s' : state) :
  closed_inv s → run_op o s = Ret s' →
  (∀ child l c, o = OpRegisterChild child (Some l) → heap s !! l = Some c → closed c = false) →
  closed_inv s' ∧
  (∀ now l c, heap s !! l = Some c → closed c = true →
     CreateChild now (Some l) s = Ret (s, Some ErrContextClosed)) ∧
  (∀ t cfg l c, heap s !! l = Some c → closed c = true →
     CreatePool t cfg (Some l) s = Ret (s, Some ErrContextClosed)).
Proof.
  intros Hinv Hrun Hreg. split_and!.
  2:{ intros now l c Hl Hc. unfold CreateChild. by rewrite Hl, Hc. }
  2:{ intros t cfg l c Hl Hc. unfold CreatePool. by rewrite Hl, Hc. }
  destruct o; simpl in Hrun.
  - injection Hrun as <-. done.
  - injection Hrun as <-. by apply closed_inv_alloc.
  - apply fmap_Ret in Hrun as ([s1 r] & Hrun & ->). simpl.
    unfold GetOrCreateContext in Hrun.
    destruct (String.eqb k ""); [by injection Hrun as <- <-|].
    destruct (registry s !! k) as [l|].
    + destruct (heap s !! l) as [c|]; [|done].
      destruct (closed c) eqn:Hc; [by injection Hrun as <- <-|].
      destruct (config (mgr s)); [|done].
      destruct (_ && _); injection Hrun as <- <-; [done|]. by apply closed_inv_insert.
    + simpl in Hrun. rewrite alter_last in Hrun. destruct (ctxCache (mgr s)); [|done].
      injection Hrun as <- <-. unfold closed_inv. simpl. apply Forall_app. split; [done|].
      apply Forall_singleton. by intros H.
  - apply fmap_Ret in Hrun as ([s1 r] & Hrun & ->). simpl.
    unfold ReturnContext in Hrun. destruct ctx as [l|]; [|by injection Hrun as <- <-].
    destruct (heap s !! l) as [c|]; [|done].
    destruct (closed c) eqn:Hc; injection Hrun as <- <-; [done|]. by apply closed_inv_insert.
  - apply fmap_Ret in Hrun as ([s1 r] & Hrun & ->). simpl.
    apply CloseContext_evolves in Hrun. by eapply evolves_closed_inv.
  - apply fmap_Ret in Hrun as (b & _ & ->). done.
  - apply cleanup_loop_evolves in Hrun. by eapply evolves_closed_inv.
  - unfold StopCleanup in Hrun. destruct (stopChan (mgr s)); [|done..]. by injection Hrun as <-.
  - apply fmap_Ret in Hrun as ([s1 r] & Hrun & ->). simpl.
    unfold ContextManager_Close in Hrun. destruct (cm_closed (mgr s)); [by injection Hrun as <- <-|].
    destruct (config (mgr s)) as [cc|]; [|done].
    assert (∀ t, (if 0 <? CleanupInterval cc then StopCleanup s else Ret s) = Ret t →
                 heap t = heap s) as Hstop.
    { intros t. destruct (_ <? _); [|by intros [= <-]]. unfold StopCleanup.
      destruct (stopChan (mgr s)); [|done..]. by intros [= <-]. }
    destruct (if 0 <? CleanupInterval cc then StopCleanup s else Ret s) as [t| | |];
      simpl in Hrun; try done.
    specialize (Hstop t eq_refl).
    destruct (close_all _ t) as [[s2 e2]| | |] eqn:Hall; simpl in Hrun; try done.
    apply close_all_evolves in Hall.
    assert (closed_inv s2) as H2.
    { eapply evolves_closed_inv; [exact Hall|]. by eapply closed_inv_heap_eq. }
    destruct e2; by injection Hrun as <- <-.
  - apply fmap_Ret in Hrun as ([s1 r] & Hrun & ->). simpl.
    by apply CreateChild_returns in Hrun as [-> _].
  - unfold RegisterChild, RegisterChild_held in Hrun. destruct mc as [l|]; [|done].
    destruct (heap s !! l) as [c|] eqn:Hl; [|done].
    destruct (decide (l ∈ [])); [done|]. injection Hrun as <-.
    apply closed_inv_insert; [done|]. simpl. by eapply Hreg.
  - apply fmap_Ret in Hrun as ([s1 r] & Hrun & ->). simpl.
    unfold CreatePool in Hrun. destruct mc as [l|]; [|done].
    destruct (heap s !! l) as [c|]; [|done].
    destruct (closed c) eqn:Hc; [by injection Hrun as <- <-|].
    destruct (pool.NewPool cfg t); [|by injection Hrun as <- <-].
    destruct (pools c); [|done]. injection Hrun as <- <-.
    unfold closed_inv. simpl. apply Forall_insert; [done|]. intros H. simpl in H. congruence.
  - apply fmap_Ret in Hrun as ([s1 r] & Hrun & ->). simpl.
    eapply closed_inv_heap_eq; [|done]. by eapply Acquire_heap.
  - apply fmap_Ret in Hrun as ([s1 r] & Hrun & ->). simpl.
    eapply closed_inv_heap_eq; [|done]. by eapply Release_heap.
  - apply fmap_Ret in Hrun as ([s1 r] & Hrun & ->). simpl.
    unfold GetPool in Hrun. destruct mm as [l|]; [|done].
    destruct (heap s !! l); [|done]. by injection Hrun as <- <-.
  - apply fmap_Ret in Hrun as ([s1 r] & Hrun & ->). simpl.
    unfold Close in Hrun. apply Close_fuel_evolves in Hrun as [_ Hev].
    by eapply evolves_closed_inv.
Qed.

Lemma closed_inv_preserved_witness :
  closed_inv (state_of (Close (Some 0%nat) tree3)).
Proof.
  destruct (closed_inv_preserved (OpClose (Some 0%nat)) tree3
              (state_of (Close (Some 0%nat) tree3))) as [H _].
  - check_closed_inv.
  - reflexivity.
  - intros child l c Ho. discriminate Ho.
  - exact H.
Defined.

(** ** The idle timestamp, for every operation *)

(** No operation of the package writes [lastUsed] of a context that is
    already allocated. *)
Lemma run_op_lastUsed (o : op) (s s' : state) (l : nat) (c : MemoryContext) :
  heap s !! l = Some c → run_op o s = Ret s' →
  (lastUsed <$> heap s' !! l) = Some (lastUsed c).
Proof.
  intros Hl Hrun.
  assert (∀ t : state, heap t = heap s → (lastUsed <$> heap t !! l) = Some (lastUsed c))
    as Hsame by (intros t ->; by rewrite Hl).
  destruct o; simpl in Hrun.
  - injection Hrun as <-. by apply Hsame.
  - injection Hrun as <-. simpl. by rewrite lookup_app_l, Hl by by eapply lookup_lt_Some.
  - apply fmap_Ret in Hrun as ([s1 r] & Hrun & ->).
    by apply (GetOrCreateContext_lastUsed _ _ _ _ _ _ _ _ Hl Hrun).
  - apply fmap_Ret in Hrun as ([s1 r] & Hrun & ->). by eapply ReturnContext_lastUsed.
  - apply fmap_Ret in Hrun as ([s1 r] & Hrun & ->).
    apply CloseContext_evolves in Hrun. by eapply evolves_lastUsed.
  - apply fmap_Ret in Hrun as (b & _ & ->). by apply Hsame.
  - apply cleanup_loop_evolves in Hrun. by eapply evolves_lastUsed.
  - unfold StopCleanup in Hrun. destruct (stopChan (mgr s)); [|done..].
    injection Hrun as <-. by apply Hsame.
  - apply fmap_Ret in Hrun as ([s1 r] & Hrun & ->). simpl.
    unfold ContextManager_Close in Hrun.
    destruct (cm_closed (mgr s)); [injection Hrun as <- <-; by apply Hsame|].
    destruct (config (mgr s)) as [cc|]; [|done].
    assert (∀ t, (if 0 <? CleanupInterval cc then StopCleanup s else Ret s) = Ret t →
                 heap t = heap s) as Hstop.
    { intros t. destruct (_ <? _); [|by intros [= <-]]. unfold StopCleanup.
      destruct (stopChan (mgr s)); [|done..]. by intros [= <-]. }
    destruct (if 0 <? CleanupInterval cc then StopCleanup s else Ret s) as [t| | |];
      simpl in Hrun; try done.
    specialize (Hstop t eq_refl).
    destruct (close_all _ t) as [[s2 e2]| | |] eqn:Hall; simpl in Hrun; try done.
    apply close_all_evolves in Hall.
    assert ((lastUsed <$> heap s2 !! l) = Some (lastUsed c)) as H2.
    { eapply evolves_lastUsed; [exact Hall|]. by rewrite Hstop. }
    destruct e2; by injection Hrun as <- <-.
  - apply fmap_Ret in Hrun as ([s1 r] & Hrun & ->). simpl.
    apply CreateChild_returns in Hrun as [-> _]. by apply Hsame.
  - unfold RegisterChild, RegisterChild_held in Hrun. destruct mc as [x|]; [|done].
    destruct (heap s !! x) as [cx|] eqn:Hx; [|done].
    destruct (decide (x ∈ [])); [done|]. injection Hrun as <-. simpl.
    rewrite (lookup_insert_field lastUsed _ _ _ _ _ Hx); [by apply Hsame|done].
  - apply fmap_Ret in Hrun as ([s1 r] & Hrun & ->). simpl.
    unfold CreatePool in Hrun. destruct mc as [x|]; [|done].
    destruct (heap s !! x) as [cx|] eqn:Hx; [|done].
    destruct (closed cx); [injection Hrun as <- <-; by apply Hsame|].
    destruct (pool.NewPool cfg t); [|injection Hrun as <- <-; by apply Hsame].
    destruct (pools cx); [|done]. injection Hrun as <- <-. simpl.
    rewrite (lookup_insert_field lastUsed _ _ _ _ _ Hx); [by apply Hsame|done].
  - apply fmap_Ret in Hrun as ([s1 r] & Hrun & ->). apply Hsame. by eapply Acquire_heap.
  - apply fmap_Ret in Hrun as ([s1 r] & Hrun & ->). apply Hsame. by eapply Release_heap.
  - apply fmap_Ret in Hrun as ([s1 r] & Hrun & ->). simpl.
    unfold GetPool in Hrun. destruct mm as [x|]; [|done].
    destruct (heap s !! x); [|done]. injection Hrun as <- <-. by apply Hsame.
  - apply fmap_Ret in Hrun as ([s1 r] & Hrun & ->). simpl.
    unfold Close in Hrun. apply Close_fuel_evolves in Hrun as [_ Hev].
    by eapply evolves_lastUsed.
Qed.

(** The reaper measures idleness from [lastUsed], which is the instant of
    creation: a context created at instant 0 and returned at any later
    time is removed by the next run that comes more than [MaxIdleTime]
    after its creation. *)
Example returned_is_reaped_by_age :
  registry (match cleanupIdleContexts (DefaultMaxIdleTime + 1) returned1 with
            | Ret s' => s'
            | _ => empty_state
            end) !! "a" = None.
Proof. reflexivity. Qed.

(** C10: what the code does with [lastUsed], against the claim that the
    sharing boundary refreshes it.  [GetOrCreateContext] and
    [ReturnContext] leave the [lastUsed] of every allocated context as it
    was, as do [Acquire] and [Release] (which leave every context as it
    was) and every other operation of the package; the only value the
    field ever gets is the instant of creation, given to the context that
    [GetOrCreateContext] creates. *)
Theorem lastUsed_set_at_creation_only (s s' : state) (l : nat) (c : MemoryContext) :
  heap s !! l = Some c →
  (∀ k cfg now r, GetOrCreateContext k cfg now s = Ret (s', r) →
     (lastUsed <$> heap s' !! l) = Some (lastUsed c) ∧
     (∀ p, r = (Some p, false, None) → (lastUsed <$> heap s' !! p) = Some now)) ∧
  (∀ ctx e, ReturnContext ctx s = Ret (s', e) →
     (lastUsed <$> heap s' !! l) = Some (lastUsed c)) ∧
  (∀ t mm o, Acquire t mm s = Ret (s', o) → heap s' = heap s) ∧
  (∀ t obj mm b, Release t obj mm s = Ret (s', b) → heap s' = heap s) ∧
  (∀ o, run_op o s = Ret s' → (lastUsed <$> heap s' !! l) = Some (lastUsed c)).
Proof.
  intros Hl. split_and!.
  - intros k cfg now r. by apply GetOrCreateContext_lastUsed.
  - intros ctx e. by apply ReturnContext_lastUsed.
  - intros t mm o. apply Acquire_heap.
  - intros t obj mm b. apply Release_heap.
  - intros o. by apply run_op_lastUsed.
Qed.

Lemma lastUsed_set_at_creation_only_witness :
  (lastUsed <$> heap shared200 !! 0%nat) = Some 100.
Proof.
  destruct (lastUsed_set_at_creation_only created100 shared200 0
              (with_count 1 (with_active true
                 {| active := false; closed := false; referenceCount := 0;
                    contextType := "a"; parent := None; children := [];
                    pools := Some ∅; createdAt := 100; lastUsed := 100 |})))
    as (H & _); [reflexivity|].
  apply (H "a"%string cfgA 200 (Some 0%nat, true, None)). reflexivity.
Defined.

(** ** The scenario of the specification *)

(** Two references are taken, a third is refused, both are returned, the
    reaper runs 150 ms later, and the caller's own close finds nothing. *)
Example ceiling_then_reaped :
  ∃ s1 s2 s3 s4 s5,
    GetOrCreateContext "A" cfgA 0 small = Ret (s1, (Some 0%nat, false, None)) ∧
    GetOrCreateContext "A" cfgA 0 s1 = Ret (s2, (Some 0%nat, true, None)) ∧
    GetOrCreateContext "A" cfgA 0 s2 = Ret (s2, (None, false, Some ErrMaxReferencesReached)) ∧
    ReturnContext (Some 0%nat) s2 = Ret (s3, None) ∧
    ReturnContext (Some 0%nat) s3 = Ret (s4, None) ∧
    key_count "A" s4 = Some 0 ∧
    cleanupIdleContexts 150000000 s4 = Ret s5 ∧
    registry s5 !! "A" = None ∧
    CloseContext "A" false s5 = Ret (s5, Some ErrContextNotFound).
Proof. eexists _, _, _, _, _. split_and!; reflexivity. Qed.

(** On an open context [CreateChild] never returns: it calls
    [RegisterChild] while holding the mutex that [RegisterChild] takes. *)
Example CreateChild_blocks : CreateChild 1 (Some 0%nat) taken1 = Deadlock.
Proof. reflexivity. Qed.

(** ** Counting references on one key *)

(** C5 as stated fails: after take, return, return, take the count is 1,
    while creates + shares - returns is 0. *)
Lemma count_formula_counterexample :
  ∃ s t, run_calls "a" [CallGet cfgA 0; CallReturn; CallReturn; CallGet cfgA 1]
           (fresh, tally0) = Ret (s, t) ∧
         creates t = 1 ∧ shares t = 1 ∧ returns t = 2 ∧
         key_count "a" s = Some 1 ∧
         key_count "a" s ≠ Some (Z.max 0 (creates t + shares t - returns t)).
Proof.
  eexists _, _. split; [reflexivity|]. split_and!; [reflexivity..|discriminate].
Qed.

Section counting.

Variable k : string.
Variable cc : ContextConfig.
Hypothesis k_not_empty : k ≠ ""%string.
Hypothesis ceiling_int32 : MaxReferences cc < 2 ^ 31.

Lemma run_call_counted (c : call) (n : Z) (s : state) (t : tally) :
  counted k cc n s t → 0 < MaxReferences cc ∨ n + 1 < 2 ^ 31 →
  ∃ s' t', run_call k c (s, t) = Ret (s', t') ∧ counted k cc (n + 1) s' t'.
Proof.
  intros (m & Hcache & Hcfg & Hsh & Hdec & Hn & Hm) Hbound.
  pose proof (registry_cache _ _ Hcache) as Hreg.
  destruct c as [cfg now|]; simpl.
  - destruct (m !! k) as [l|] eqn:Hk.
    + destruct Hm as (c & Hl & Hc & Hcr & Hrc & Hpos). rewrite <- Hreg in Hk.
      destruct (decide (0 < MaxReferences cc ∧ MaxReferences cc <= referenceCount c))
        as [[H1 H2]|Hno].
      * rewrite (GetOrCreateContext_full k cfg now s cc l c); try done. simpl.
        eexists _, _. split; [done|].
        exists m. rewrite Hreg in Hk. rewrite Hk. split_and!; try done; try lia. by exists c.
      * rewrite (GetOrCreateContext_share k cfg now s cc l c); try done. simpl.
        eexists _, _. split; [done|].
        exists m. simpl. rewrite Hreg in Hk. rewrite Hk. split_and!; try done; try lia.
        eexists. split; [apply list_lookup_insert_eq; by eapply lookup_lt_Some|].
        simpl. rewrite wrap32_small by lia. split_and!; try done; lia.
    + destruct Hm as (Hcr & Hs0 & Hd0).
      rewrite (GetOrCreateContext_new k cfg now s m); try done. simpl.
      eexists _, _. split; [done|]. eexists. simpl. split; [done|].
      rewrite lookup_insert_eq. split_and!; try done; try lia.
      eexists. split; [by apply list_lookup_middle|]. simpl. split_and!; try done; lia.
  - rewrite Hreg. unfold key_count. rewrite Hreg. destruct (m !! k) as [l|] eqn:Hk; simpl.
    + destruct Hm as (c & Hl & Hc & Hcr & Hrc & Hpos). rewrite Hl, Hc. simpl.
      eexists _, _. split; [done|]. exists m. simpl. rewrite Hk.
      destruct (Z.ltb_spec 0 (referenceCount c)); (split_and!; try done; try lia);
        (eexists; split; [apply list_lookup_insert_eq; by eapply lookup_lt_Some|]);
        simpl; split_and!; try done; lia.
    + eexists _, _. split; [done|]. exists m. rewrite Hk. split_and!; try done; lia.
Qed.

Lemma run_calls_counted (cs : list call) (n : Z) (s : state) (t : tally) :
  counted k cc n s t → 0 < MaxReferences cc ∨ n + Z.of_nat (length cs) < 2 ^ 31 →
  ∃ s' t', run_calls k cs (s, t) = Ret (s', t') ∧ counted k cc (n + Z.of_nat (length cs)) s' t'.
Proof.
  revert n s t. induction cs as [|c cs IH]; intros n s t Hinv Hbound.
  { exists s, t. split; [done|]. simpl. by rewrite Z.add_0_r. }
  destruct (run_call_counted c n s t Hinv) as (s1 & t1 & Hcall & Hinv1).
  { destruct Hbound as [?|Hb]; [by left|right]. simpl length in Hb. lia. }
  destruct (IH (n + 1) s1 t1 Hinv1) as (s' & t' & Hrun & Hinv').
  { destruct Hbound as [?|Hb]; [by left|right]. simpl length in Hb. lia. }
  exists s', t'. split.
  - change (run_call k c (s, t) ≫= run_calls k cs = Ret (s', t')). by rewrite Hcall.
  - replace (n + Z.of_nat (length (c :: cs))) with (n + 1 + Z.of_nat (length cs)); [done|].
    simpl length. lia.
Qed.

End counting.

(** C5, amended: for every sequence of [GetOrCreateContext] and
    [ReturnContext] calls on one key of a new manager, as long as the
    [int32] count cannot overflow (a positive ceiling, or fewer than 2^31
    calls), every call returns, and the count of the key's context is
    creates + shares - decrements, where decrements counts the returns
    that found a positive count; it is never negative, and a return on an
    open context whose count is 0 leaves it at 0. *)
Theorem count_is_takes_minus_decrements (k : string) (cc : ContextConfig) (cs : list call) :
  k ≠ ""%string → MaxReferences cc < 2 ^ 31 →
  0 < MaxReferences cc ∨ Z.of_nat (length cs) < 2 ^ 31 →
  (∃ s t, run_calls k cs (NewContextManager (Some cc) empty_state, tally0) = Ret (s, t) ∧
          key_count k s =
            (if creates t =? 0 then None
             else Some (creates t + shares t - decrements t)) ∧
          0 <= creates t + shares t - decrements t ∧
          creates t <= 1 ∧ decrements t <= returns t) ∧
  (∀ s l c, heap s !! l = Some c → closed c = false → referenceCount c = 0 →
     ∃ s', ReturnContext (Some l) s = Ret (s', None) ∧
           (referenceCount <$> heap s' !! l) = Some 0).
Proof.
  intros Hk Hceil Hbound. split.
  - destruct (run_calls_counted k cc Hk Hceil cs 0 (NewContextManager (Some cc) empty_state)
                tally0) as (s & t & Hrun & Hinv).
    { exists ∅. simpl. rewrite lookup_empty. split_and!; done. }
    { destruct Hbound; [by left|right; lia]. }
    exists s, t. split; [done|].
    destruct Hinv as (m & Hcache & Hcfg & Hsh & Hdec & Hn & Hm).
    unfold key_count. rewrite (registry_cache _ _ Hcache).
    destruct (m !! k) as [l|]; simpl.
    + destruct Hm as (c & Hl & Hc & Hcr & Hrc & Hpos). rewrite Hl, Hcr. simpl.
      split_and!; try lia. f_equal. lia.
    + destruct Hm as (-> & -> & ->). simpl. split_and!; try done; lia.
  - intros s l c Hl Hc Hrc. unfold ReturnContext. rewrite Hl, Hc, Hrc. simpl.
    eexists. split; [done|]. simpl.
    rewrite list_lookup_insert_eq by by eapply lookup_lt_Some. done.
Qed.

Lemma count_is_takes_minus_decrements_witness :
  ∃ s t, run_calls "a" [CallGet cfgA 0; CallReturn; CallReturn; CallGet cfgA 1]
           (NewContextManager (Some newDefaultConfig) empty_state, tally0) = Ret (s, t) ∧
         key_count "a" s =
           (if creates t =? 0 then None else Some (creates t + shares t - decrements t)).
Proof.
  destruct (count_is_takes_minus_decrements "a" newDefaultConfig
              [CallGet cfgA 0; CallReturn; CallReturn; CallGet cfgA 1])
    as [(s & t & Hrun & Hcount & _) _].
  - discriminate.
  - reflexivity.
  - left. reflexivity.
  - exists s, t. split; [exact Hrun|exact Hcount].
Defined.

(** * Further properties of the code *)

(** ** Contexts *)

(** X1: [CreateChild] never adds a child.  On a closed receiver it reports
    [ErrContextClosed] and changes nothing; on an open receiver it does
    not return, because it calls [RegisterChild] while holding the mutex
    that [RegisterChild] takes. *)
Theorem CreateChild_never_succeeds (now : Z) (l : nat) (c : MemoryContext) (s : state) :
  heap s !! l = Some c →
  CreateChild now (Some l) s =
    if closed c then Ret (s, Some ErrContextClosed) else Deadlock.
Proof.
  intros Hl. unfold CreateChild. rewrite Hl. destruct (closed c); [done|]. simpl.
  rewrite lookup_app_l by by eapply lookup_lt_Some. rewrite Hl.
  destruct (decide (l ∈ [l])) as [|Hne]; [done|]. destruct Hne. by left.
Qed.

Lemma CreateChild_never_succeeds_witness : CreateChild 1 (Some 0%nat) taken1 = Deadlock.
Proof.
  apply (CreateChild_never_succeeds 1 0 (with_count 1 (with_active true (sample_ctx [] ∅)))).
  reflexivity.
Defined.

(** A call of [Close] changes no context whose mutex the goroutine
    holds. *)
Lemma Close_fuel_held (f : nat) (held : list nat) (mc : ptr) (s s' : state)
    (e : option error) (x : nat) :
  Close_fuel f held mc s = Ret (s', e) → x ∈ held → heap s' !! x = heap s !! x.
Proof.
  intros Hcall Hx. apply Close_fuel_evolves in Hcall as [_ Hev].
  destruct (heap s !! x) as [c|] eqn:Hc.
  - destruct (ev_ctx _ _ _ Hev x c Hc) as [?|((Hnot & _) & _)]; [done|]. by destruct Hnot.
  - apply lookup_ge_None. rewrite (ev_len _ _ _ Hev). by apply lookup_ge_None.
Qed.

(** X6: a [Close] that reports an error leaves the receiver as it was:
    still open, with its pools and its children recorded, so that the call
    can be repeated.  The error is the wrapped error of a pool or of a
    child. *)
Theorem Close_error_keeps_receiver (l : nat) (c : MemoryContext) (s s' : state) (e : error) :
  heap s !! l = Some c → Close (Some l) s = Ret (s', Some e) →
  heap s' !! l = Some c ∧ closed c = false ∧
  ∃ inner, e = ErrWrap "failed to close pool" inner ∨
           e = ErrWrap "failed to close child context" inner.
Proof.
  intros Hl Hclose. unfold Close in Hclose.
  apply Close_fuel_cases in Hclose as (l' & c' & [= <-] & Hl' & _ & H).
  rewrite Hl in Hl'. injection Hl' as <-.
  destruct H as [(_ & _ & [=])|(Hc & s1 & e1 & Hp & H)].
  destruct H as [(_ & <- & <-)|(-> & s2 & e2 & Hch & H)].
  - pose proof Hp as Hp'. apply close_pools_spec in Hp' as (Hh & _).
    split_and!; [by rewrite Hh|done|].
    clear Hh. revert s Hl Hp. generalize (map_to_list (ctx_pools c)).
    intros ps. induction ps as [|[t p] ps IH]; intros s Hl; simpl; [done|].
    destruct (pstore s !! p) as [pl|]; [|done]. destruct (pool.Close pl) as [pl' [e0|]].
    + intros [= _ <-]. eauto.
    + apply IH. done.
  - destruct H as [(_ & <- & <-)|(_ & _ & [=])].
    apply close_pools_spec in Hp as (Hh & _).
    assert (heap s' !! l = heap s1 !! l ∧
            ∃ inner, e = ErrWrap "failed to close child context" inner) as [Hsame Hwrap].
    { clear Hl Hc Hh. revert s1 Hch. generalize (children c). intros cs.
      induction cs as [|ch cs IH]; intros s1; simpl; [done|].
      destruct (Close_fuel _ _ ch s1) as [[t e1]| | |] eqn:Hcall; simpl; try done.
      pose proof (Close_fuel_held _ _ _ _ _ _ l Hcall ltac:(left)) as Hkeep.
      destruct e1 as [e1|].
      - intros [= <- <-]. split; [done|]. eauto.
      - intros Hrest. destruct (IH t Hrest) as [Hs Hw].
        split; [congruence|done]. }
    split_and!; [by rewrite Hsame, Hh|done|]. destruct Hwrap as [inner ->]. eauto.
Qed.

Lemma Close_error_keeps_receiver_witness :
  heap (state_of (Close (Some 0%nat) stuck)) !! 0%nat = Some (sample_ctx [] {["A" := 0%nat]}).
Proof.
  destruct (Close_error_keeps_receiver 0 (sample_ctx [] {["A" := 0%nat]}) stuck
              (state_of (Close (Some 0%nat) stuck))
              (ErrWrap "failed to close pool" ErrPool)) as [H _];
    [reflexivity|reflexivity|exact H].
Defined.

(** X5: once [Close] has succeeded on a context, the context refuses
    everything: [Acquire] yields nothing, [Release] reports [false],
    [CreatePool] and [CreateChild] report [ErrContextClosed], [GetPool]
    finds no pool, [ValidateContext] says no and [ReturnContext] reports
    [ErrContextClosed]; none of these calls changes the state. *)
Theorem closed_context_refuses (l : nat) (s s' : state) (t : string)
    (cfg : pool.PoolConfig) (obj : pool.Obj) (now : Z) :
  closed_inv s → Close (Some l) s = Ret (s', None) →
  Acquire t (Some l) s' = Ret (s', None) ∧
  Release t obj (Some l) s' = Ret (s', false) ∧
  CreatePool t cfg (Some l) s' = Ret (s', Some ErrContextClosed) ∧
  CreateChild now (Some l) s' = Ret (s', Some ErrContextClosed) ∧
  GetPool t (Some l) s' = Ret (s', None) ∧
  ValidateContext (Some l) s' = Ret false ∧
  ReturnContext (Some l) s' = Ret (s', Some ErrContextClosed).
Proof.
  intros Hinv Hclose.
  destruct (Close_fuel_is_closed _ _ _ Hclose) as (c' & Hl' & Hc').
  unfold Close in Hclose. apply Close_fuel_evolves in Hclose as [_ Hev].
  pose proof (evolves_closed_inv _ _ _ Hev Hinv) as Hinv'.
  destruct (closed_inv_lookup _ _ _ Hinv' Hl' Hc') as (Hpools & _).
  unfold Acquire, Release, CreatePool, CreateChild, GetPool, ValidateContext, ReturnContext.
  rewrite Hl', Hc', Hpools, lookup_empty. done.
Qed.

Lemma closed_context_refuses_witness :
  Acquire "A" (Some 0%nat) (state_of (Close (Some 0%nat) tree3)) =
    Ret (state_of (Close (Some 0%nat) tree3), None).
Proof.
  destruct (closed_context_refuses 0 tree3 (state_of (Close (Some 0%nat) tree3)) "A"
              {| pool.cfg_invalid := false; pool.cfg_close_fails := false |}
              {| pool.obj_type := "A"; pool.obj_id := 0 |} 0) as [H _].
  - apply tree3_closed_inv.
  - reflexivity.
  - exact H.
Defined.

Lemma close_children_all (closeChild : ptr → state → result (state * option error))
    (cs : list ptr) (s s' : state) :
  close_children closeChild cs s = Ret (s', None) →
  ∀ ch, ch ∈ cs → ∃ t t', closeChild ch t = Ret (t', None).
Proof.
  intros Hloop.
  destruct (close_children_loop closeChild (λ _, True)
              (λ ch _, ∃ t t', closeChild ch t = Ret (t', None)) cs) with (s := s)
    (s' := s') (e := @None error) as (_ & _ & Hall); try done.
  - intros ch t t' e _ _ Hcall. split; [done|]. split; [|done]. intros ->. eauto.
  - by apply Hall.
Qed.

(** X13: [Close] never succeeds on an open context that is in its own
    children: the nested call waits for the mutex the outer call holds. *)
Theorem Close_self_child_never_succeeds (l : nat) (c : MemoryContext) (s s' : state) :
  heap s !! l = Some c → closed c = false → Some l ∈ children c →
  Close (Some l) s ≠ Ret (s', None).
Proof.
  intros Hl Hc Hin Hclose. unfold Close in Hclose.
  apply Close_fuel_cases in Hclose as (l' & c' & [= <-] & Hl' & _ & H).
  rewrite Hl in Hl'. injection Hl' as <-.
  destruct H as [(Hc' & _)|(_ & s1 & e1 & _ & H)]; [congruence|].
  destruct H as [([e' ->] & _ & [=])|(_ & s2 & e2 & Hch & H)].
  destruct H as [([e' ->] & _ & [=])|(-> & _)].
  destruct (close_children_all _ _ _ _ Hch (Some l) Hin) as (t & t' & Hcall).
  destruct (length (heap s)) as [|f]; [done|].
  apply Close_fuel_cases in Hcall as (x & _ & [= <-] & _ & Hnot & _).
  apply Hnot. by left.
Qed.

Lemma Close_self_child_never_succeeds_witness :
  Close (Some 0%nat) self_child ≠ Ret (self_child, None).
Proof.
  apply (Close_self_child_never_succeeds 0 (sample_ctx [Some 0%nat] ∅) self_child self_child).
  - reflexivity.
  - reflexivity.
  - left.
Defined.

(** X14: [CreatePool] on an open context stores the new pool under the
    object type, where [GetPool] finds it; the pools of the other types
    stay, and so does every pool allocated before, so a pool that is
    replaced is dropped without being closed.  No other context changes. *)
Theorem CreatePool_then_GetPool (t : string) (cfg : pool.PoolConfig) (l : nat)
    (c : MemoryContext) (s : state) (m : gmap string nat) (poolObj : pool.Pool) :
  heap s !! l = Some c → closed c = false → pools c = Some m →
  pool.NewPool cfg t = Some poolObj →
  ∃ s', CreatePool t cfg (Some l) s = Ret (s', None) ∧
        GetPool t (Some l) s' = Ret (s', Some (length (pstore s))) ∧
        pstore s' !! length (pstore s) = Some poolObj ∧
        (∀ t', t' ≠ t → GetPool t' (Some l) s' = Ret (s', m !! t')) ∧
        (∀ p pl, pstore s !! p = Some pl → pstore s' !! p = Some pl) ∧
        (∀ x, x ≠ l → heap s' !! x = heap s !! x).
Proof.
  intros Hl Hc Hm Hnew. unfold CreatePool. rewrite Hl, Hc, Hnew, Hm.
  eexists. split; [done|].
  assert (l < length (heap s))%nat as Hlt by by eapply lookup_lt_Some.
  unfold GetPool. simpl. rewrite list_lookup_insert_eq by done.
  unfold ctx_pools. simpl. split_and!.
  - by rewrite lookup_insert_eq.
  - by apply list_lookup_middle.
  - intros t' Ht'. by rewrite lookup_insert_ne.
  - intros p pl Hp. by apply lookup_app_l_Some.
  - intros x Hx. by rewrite list_lookup_insert_ne.
Qed.

Lemma CreatePool_then_GetPool_witness :
  ∃ s', CreatePool "A" {| pool.cfg_invalid := false; pool.cfg_close_fails := false |}
          (Some 0%nat) taken1 = Ret (s', None) ∧
        GetPool "A" (Some 0%nat) s' = Ret (s', Some 0%nat).
Proof.
  destruct (CreatePool_then_GetPool "A"
              {| pool.cfg_invalid := false; pool.cfg_close_fails := false |} 0
              (with_count 1 (with_active true (sample_ctx [] ∅))) taken1 ∅ (sample_pool "A"))
    as (s' & H1 & H2 & _); [reflexivity..|].
  exists s'. split; [exact H1|exact H2].
Defined.

(** ** The manager *)

(** X10: returning a context right after sharing it undoes the sharing.
    For a count in [0, 2^31 - 1) the state is the one before the two
    calls, except that [active] now says whether that count is positive;
    where it already did, the state is the same. *)
Theorem share_then_return (k : string) (cfg : MemoryContextConfig) (now : Z)
    (s s1 : state) (l : nat) (c : MemoryContext) :
  heap s !! l = Some c → 0 <= referenceCount c < 2 ^ 31 - 1 →
  GetOrCreateContext k cfg now s = Ret (s1, (Some l, true, None)) →
  ReturnContext (Some l) s1 =
    Ret (set_heap (<[l := with_active (0 <? referenceCount c) c]> (heap s)) s, None) ∧
  (active c = (0 <? referenceCount c) → ReturnContext (Some l) s1 = Ret (s, None)).
Proof.
  intros Hl Hrange Hget.
  assert (l < length (heap s))%nat as Hlt by by eapply lookup_lt_Some.
  assert (ReturnContext (Some l) s1 =
    Ret (set_heap (<[l := with_active (0 <? referenceCount c) c]> (heap s)) s, None)) as Hret.
  { unfold GetOrCreateContext in Hget. destruct (String.eqb k ""); [done|].
    destruct (registry s !! k) as [x|].
    - destruct (heap s !! x) as [cx|] eqn:Hx; [|done].
      destruct (closed cx) eqn:Hcx; [done|]. destruct (config (mgr s)); [|done].
      destruct (_ && _); [done|]. injection Hget as <- <-.
      rewrite Hl in Hx. injection Hx as <-.
      unfold ReturnContext. simpl. rewrite list_lookup_insert_eq by done. simpl.
      rewrite Hcx, wrap32_small by lia.
      destruct (Z.ltb_spec 0 (referenceCount c + 1)); [|lia].
      rewrite list_insert_insert_eq. unfold set_heap. simpl.
      replace (referenceCount c + 1 - 1) with (referenceCount c) by lia.
      by destruct c.
    - simpl in Hget. destruct (ctxCache (mgr s)); [|done]. by injection Hget. }
  split; [done|]. intros Hact. rewrite Hret. f_equal. f_equal.
  destruct s as [h ps m]. unfold set_heap. simpl in *. f_equal.
  apply list_insert_id. rewrite Hl. f_equal. rewrite <- Hact. by destruct c.
Qed.

Lemma share_then_return_witness :
  ReturnContext (Some 0%nat) (state_of (GetOrCreateContext "a" cfgA 5 taken1)) =
    Ret (taken1, None).
Proof.
  destruct (share_then_return "a" cfgA 5 taken1
              (state_of (GetOrCreateContext "a" cfgA 5 taken1)) 0
              (with_count 1 (with_active true (sample_ctx [] ∅)))) as [_ H].
  - reflexivity.
  - simpl. lia.
  - reflexivity.
  - apply H. reflexivity.
Defined.

(** X15: what [ValidateContext] says of a handle right after the manager
    handed it out or took it back.  A context that [GetOrCreateContext]
    has just created is valid, and after [ReturnContext] the context is
    valid exactly when its count is still positive. *)
Theorem ValidateContext_after_manager_calls (s s' : state) :
  (∀ k cfg now p, GetOrCreateContext k cfg now s = Ret (s', (Some p, false, None)) →
     ValidateContext (Some p) s' = Ret true) ∧
  (∀ l, ReturnContext (Some l) s = Ret (s', None) →
     ∃ c', heap s' !! l = Some c' ∧
           ValidateContext (Some l) s' = Ret (0 <? referenceCount c')).
Proof.
  split.
  - intros k cfg now p. unfold GetOrCreateContext. destruct (String.eqb k ""); [done|].
    destruct (registry s !! k) as [x|].
    + destruct (heap s !! x) as [cx|]; [|done]. destruct (closed cx); [done|].
      destruct (config (mgr s)); [|done]. by destruct (_ && _).
    + simpl. rewrite alter_last. destruct (ctxCache (mgr s)); [|done].
      intros [= <- <-]. unfold ValidateContext. simpl. by rewrite list_lookup_middle.
  - intros l. unfold ReturnContext. destruct (heap s !! l) as [c|] eqn:Hl; [|done].
    destruct (closed c) eqn:Hc; [done|]. intros [= <-]. eexists. simpl. split.
    + apply list_lookup_insert_eq. by eapply lookup_lt_Some.
    + unfold ValidateContext. simpl.
      rewrite list_lookup_insert_eq by by eapply lookup_lt_Some. simpl. by rewrite Hc.
Qed.

Lemma ValidateContext_after_manager_calls_witness :
  ValidateContext (Some 0%nat) taken1 = Ret true.
Proof.
  destruct (ValidateContext_after_manager_calls fresh taken1) as [H _].
  apply (H "a"%string cfgA 0 0%nat). reflexivity.
Defined.

Lemma CloseContext_mgr (k : string) (locked : bool) (s s' : state) (e : option error) :
  CloseContext k locked s = Ret (s', e) →
  config (mgr s') = config (mgr s) ∧ stopChan (mgr s') = stopChan (mgr s) ∧
  cm_closed (mgr s') = cm_closed (mgr s) ∧
  (∀ k' l', registry s' !! k' = Some l' → registry s !! k' = Some l').
Proof.
  unfold CloseContext. destruct (registry s !! k) as [l|]; [|by intros [= <- <-]].
  destruct (heap s !! l) as [c|]; [|done].
  destruct (0 <? referenceCount c); [by intros [= <- <-]|].
  destruct (Close (Some l) s) as [[s1 e1]| | |] eqn:Hclose; simpl; try done.
  unfold Close in Hclose. apply Close_fuel_evolves in Hclose as [Hm _].
  destruct e1; intros [= <- <-].
  - unfold registry. by rewrite Hm.
  - simpl. rewrite Hm. split_and!; try done. intros k' l'. unfold registry. simpl.
    destruct (ctxCache (mgr s)); simpl; [|done].
    intros H. by apply lookup_delete_Some in H as [_ H].
Qed.

Lemma CloseContext_success (k : string) (locked : bool) (s s' : state) :
  CloseContext k locked s = Ret (s', None) →
  ∃ l, registry s !! k = Some l ∧ is_closed s' l ∧ registry s' !! k = None ∧
       (∀ k', k' ≠ k → registry s' !! k' = registry s !! k').
Proof.
  intros Hcall. pose proof Hcall as Hcall'. unfold CloseContext in Hcall.
  destruct (registry s !! k) as [l|] eqn:Hk; [|done].
  destruct (CloseContext_effect _ _ _ _ _ _ Hk Hcall') as (_ & _ & Hne & _ & _).
  exists l. split; [done|].
  destruct (heap s !! l) as [c|]; [|done]. destruct (0 <? referenceCount c); [done|].
  destruct (Close (Some l) s) as [[s1 e1]| | |] eqn:Hclose; simpl in Hcall; try done.
  destruct e1; [done|]. injection Hcall as <-.
  pose proof (Close_fuel_is_closed _ _ _ Hclose) as Hcl.
  unfold Close in Hclose. apply Close_fuel_evolves in Hclose as [Hm _].
  split_and!; [done| |done].
  unfold registry in *. simpl. rewrite Hm.
  destruct (ctxCache (mgr s)); simpl; [|done]. apply lookup_delete_eq.
Qed.


Lemma close_all_mgr (keys : list string) (s s' : state) (e : option error) :
  close_all keys s = Ret (s', e) →
  config (mgr s') = config (mgr s) ∧ stopChan (mgr s') = stopChan (mgr s) ∧
  cm_closed (mgr s') = cm_closed (mgr s).
Proof.
  revert s. induction keys as [|k keys IH]; intros s Hall.
  { by injection Hall as <- <-. }
  simpl in Hall.
  destruct (CloseContext k false s) as [[s1 e1]| | |] eqn:Hclose; simpl in Hall; try done.
  apply CloseContext_mgr in Hclose as (H1 & H2 & H3 & _). destruct e1.
  - by injection Hall as <- <-.
  - destruct (IH _ Hall) as (? & ? & ?). split_and!; congruence.
Qed.

Lemma close_all_closes (keys : list string) (s s' : state) :
  NoDup keys → close_all keys s = Ret (s', None) →
  ∀ k l, k ∈ keys → registry s !! k = Some l → is_closed s' l.
Proof.
  revert s. induction keys as [|k0 keys IH]; intros s Hnd Hall k l Hin Hk.
  { by apply elem_of_nil in Hin. }
  apply NoDup_cons in Hnd as [Hk0 Hnd]. simpl in Hall.
  destruct (CloseContext k0 false s) as [[s1 e1]| | |] eqn:Hclose; simpl in Hall; try done.
  destruct e1; [done|].
  destruct (CloseContext_success _ _ _ _ Hclose) as (l0 & Hl0 & Hcl & _ & Hne).
  apply elem_of_cons in Hin as [->|Hin].
  - rewrite Hk in Hl0. injection Hl0 as <-.
    eapply evolves_closed_stays; [by eapply close_all_evolves|done].
  - assert (k ≠ k0) as Hkk by (intros ->; done).
    eapply (IH s1); eauto. by rewrite Hne.
Qed.


Lemma StopCleanup_effect (s s1 : state) :
  StopCleanup s = Ret s1 →
  heap s1 = heap s ∧ pstore s1 = pstore s ∧ ctxCache (mgr s1) = ctxCache (mgr s) ∧
  config (mgr s1) = config (mgr s) ∧ cm_closed (mgr s1) = cm_closed (mgr s) ∧
  stopChan (mgr s1) = ChanClosed.
Proof.
  unfold StopCleanup. destruct (stopChan (mgr s)); [|done..]. by intros [= <-].
Qed.

(** X3: when the manager's [Close] succeeds, every context that was
    registered is closed, and the manager is left without registry and
    configuration, marked closed. *)
Theorem ContextManager_Close_closes_all (s s' : state) :
  ContextManager_Close s = Ret (s', None) →
  mgr s' = {| ctxCache := None; config := None; stopChan := ChanNil; cm_closed := true |} ∧
  ∀ k l, registry s !! k = Some l → is_closed s' l.
Proof.
  intros Hdone. split; [by eapply ContextManager_Close_done|].
  unfold ContextManager_Close in Hdone. destruct (cm_closed (mgr s)); [done|].
  destruct (config (mgr s)) as [cc|]; [|done].
  assert (∀ s1, (if 0 <? CleanupInterval cc then StopCleanup s else Ret s) = Ret s1 →
                heap s1 = heap s ∧ registry s1 = registry s) as Hstop.
  { intros s1. destruct (_ <? _); [|by intros [= <-]]. intros H.
    apply StopCleanup_effect in H as (? & _ & Hc & _). unfold registry. by rewrite Hc. }
  destruct (if 0 <? CleanupInterval cc then StopCleanup s else Ret s) as [s1| | |];
    simpl in Hdone; try done.
  destruct (Hstop s1 eq_refl) as [_ Hreg].
  destruct (close_all _ s1) as [[s2 [e2|]]| | |] eqn:Hall; simpl in Hdone; try done.
  injection Hdone as <-. intros k l Hk. unfold is_closed. simpl.
  apply (close_all_closes _ s1 s2 (NoDup_fst_map_to_list (registry s1)) Hall k l).
  - apply list_elem_of_fmap. exists (k, l). split; [done|].
    apply elem_of_map_to_list. by rewrite Hreg.
  - by rewrite Hreg.
Qed.

Lemma ContextManager_Close_closes_all_witness :
  is_closed (state_of (ContextManager_Close returned1)) 0.
Proof.
  destruct (ContextManager_Close_closes_all returned1
              (state_of (ContextManager_Close returned1))) as [_ H]; [reflexivity|].
  apply (H "a"%string). reflexivity.
Defined.




(** X2: with the cleanup routine enabled, a manager's [Close] that
    reported an error cannot be repeated: the first call has closed the
    stop channel and left the manager open, so the next call closes the
    channel again and panics. *)
Theorem ContextManager_Close_retry_panics (s s' : state) (e : error) (cc : ContextConfig) :
  cm_closed (mgr s) = false → config (mgr s) = Some cc → 0 < CleanupInterval cc →
  ContextManager_Close s = Ret (s', Some e) →
  ContextManager_Close s' = Panic.
Proof.
  intros Hopen Hcfg Hpos Hrun. unfold ContextManager_Close in Hrun.
  rewrite Hopen, Hcfg in Hrun. destruct (Z.ltb_spec 0 (CleanupInterval cc)); [|lia].
  destruct (StopCleanup s) as [s1| | |] eqn:Hstop; simpl in Hrun; try done.
  apply StopCleanup_effect in Hstop as (_ & _ & _ & Hc1 & Hcl1 & Hch1).
  destruct (close_all _ s1) as [[s2 e2]| | |] eqn:Hall; simpl in Hrun; try done.
  destruct (close_all_mgr _ _ _ _ Hall) as (Hc2 & Hch2 & Hcl2).
  destruct e2; [|done]. injection Hrun as <- <-.
  unfold ContextManager_Close. rewrite Hcl2, Hcl1, Hopen, Hc2, Hc1, Hcfg.
  destruct (Z.ltb_spec 0 (CleanupInterval cc)); [|lia].
  unfold StopCleanup. by rewrite Hch2, Hch1.
Qed.

Lemma ContextManager_Close_retry_panics_witness :
  ContextManager_Close (state_of (ContextManager_Close taken1)) = Panic.
Proof.
  apply (ContextManager_Close_retry_panics taken1 (state_of (ContextManager_Close taken1))
           (ErrWrap "error closing context a" ErrContextInUse) newDefaultConfig);
    reflexivity.
Defined.

(** X12: [StopCleanup] can be called once.  A second call panics, and so
    does the manager's [Close] when the cleanup routine is enabled, since
    it calls [StopCleanup] itself. *)
Theorem StopCleanup_only_once (s s1 : state) :
  StopCleanup s = Ret s1 →
  StopCleanup s1 = Panic ∧
  (∀ cc, cm_closed (mgr s) = false → config (mgr s) = Some cc → 0 < CleanupInterval cc →
     ContextManager_Close s1 = Panic).
Proof.
  intros Hstop. apply StopCleanup_effect in Hstop as (_ & _ & _ & Hc & Hcl & Hch).
  split.
  - unfold StopCleanup. by rewrite Hch.
  - intros cc Hopen Hcfg Hpos. unfold ContextManager_Close. rewrite Hcl, Hopen, Hc, Hcfg.
    destruct (Z.ltb_spec 0 (CleanupInterval cc)); [|lia]. unfold StopCleanup. by rewrite Hch.
Qed.

Lemma StopCleanup_only_once_witness :
  StopCleanup (match StopCleanup fresh with Ret s1 => s1 | _ => empty_state end) = Panic.
Proof.
  destruct (StopCleanup_only_once fresh
              (match StopCleanup fresh with Ret s1 => s1 | _ => empty_state end)) as [H _];
    [reflexivity|exact H].
Defined.

(** X7: [Close] called on the handle of a registered context leaves the
    entry in the registry.  From then on [GetOrCreateContext] for that key
    reports [ErrContextClosed] and creates nothing, [ReturnContext]
    reports [ErrContextClosed], and [CloseContext] succeeds and removes
    the entry. *)
Theorem direct_Close_keeps_entry (k : string) (l : nat) (s s' : state)
    (cfg : MemoryContextConfig) (now : Z) (locked : bool) :
  closed_inv s → k ≠ ""%string → registry s !! k = Some l →
  Close (Some l) s = Ret (s', None) →
  registry s' !! k = Some l ∧
  GetOrCreateContext k cfg now s' = Ret (s', (None, false, Some ErrContextClosed)) ∧
  ReturnContext (Some l) s' = Ret (s', Some ErrContextClosed) ∧
  ∃ s'', CloseContext k locked s' = Ret (s'', None) ∧ registry s'' !! k = None ∧
         heap s'' = heap s'.
Proof.
  intros Hinv Hk Hreg Hclose.
  destruct (Close_fuel_is_closed _ _ _ Hclose) as (c' & Hl' & Hc').
  unfold Close in Hclose. apply Close_fuel_evolves in Hclose as [Hm Hev].
  pose proof (evolves_closed_inv _ _ _ Hev Hinv) as Hinv'.
  destruct (closed_inv_lookup _ _ _ Hinv' Hl' Hc') as (_ & _ & Hcount & _).
  assert (registry s' !! k = Some l) as Hreg' by (unfold registry; by rewrite Hm).
  split_and!; [done| | |].
  - unfold GetOrCreateContext. by rewrite (eqb_empty_false _ Hk), Hreg', Hl', Hc'.
  - unfold ReturnContext. by rewrite Hl', Hc'.
  - unfold CloseContext. rewrite Hreg', Hl', Hcount. simpl.
    unfold Close. simpl. rewrite Hl', Hc'.
    destruct (decide (l ∈ [])) as [Hin|_]; [by apply elem_of_nil in Hin|]. simpl.
    eexists. split; [done|]. split; [|done]. unfold registry in *. simpl.
    destruct (ctxCache (mgr s')); simpl; [|done]. apply lookup_delete_eq.
Qed.

Lemma closed_inv_taken1 : closed_inv taken1.
Proof. check_closed_inv. Qed.

Lemma direct_Close_keeps_entry_witness :
  GetOrCreateContext "a" cfgA 9 (state_of (Close (Some 0%nat) taken1)) =
    Ret (state_of (Close (Some 0%nat) taken1), (None, false, Some ErrContextClosed)).
Proof.
  destruct (direct_Close_keeps_entry "a" 0 taken1 (state_of (Close (Some 0%nat) taken1))
              cfgA 9 false) as (_ & H & _).
  - apply closed_inv_taken1.
  - discriminate.
  - reflexivity.
  - reflexivity.
  - exact H.
Defined.

(** X9: [GetOrCreateContext] never replaces or removes an entry of the
    registry and touches no key but its own; a handle it returns without
    error is the context registered under the key, and when it reports an
    error it returns no handle and changes nothing. *)
Theorem GetOrCreateContext_registry (k : string) (cfg : MemoryContextConfig) (now : Z)
    (s s' : state) (p : ptr) (b : bool) (e : option error) :
  GetOrCreateContext k cfg now s = Ret (s', (p, b, e)) →
  (∀ k' l, registry s !! k' = Some l → registry s' !! k' = Some l) ∧
  (∀ k', k' ≠ k → registry s' !! k' = registry s !! k') ∧
  (e = None → ∃ l, p = Some l ∧ registry s' !! k = Some l ∧ is_Some (heap s' !! l)) ∧
  (is_Some e → p = None ∧ b = false ∧ s' = s).
Proof.
  unfold GetOrCreateContext. destruct (String.eqb k "").
  { intros [= <- <- <- <-]. split_and!; try done. }
  destruct (registry s !! k) as [x|] eqn:Hk.
  - destruct (heap s !! x) as [cx|] eqn:Hx; [|done].
    destruct (closed cx); [intros [= <- <- <- <-]; split_and!; done|].
    destruct (config (mgr s)); [|done].
    destruct (_ && _); intros [= <- <- <- <-]; (split_and!; try done).
    intros _. exists x. split_and!; try done. simpl.
    rewrite list_lookup_insert_eq by by eapply lookup_lt_Some. by eexists.
  - simpl. rewrite alter_last. destruct (ctxCache (mgr s)) as [m|] eqn:Hcache; [|done].
    intros [= <- <- <- <-]. unfold registry in *. simpl. rewrite Hcache in *. simpl in *.
    split_and!.
    + intros k' l Hk'. rewrite lookup_insert_ne; [done|]. intros <-. congruence.
    + intros k' Hk'. by rewrite lookup_insert_ne.
    + intros _. eexists. split_and!; [done|by rewrite lookup_insert_eq|].
      rewrite list_lookup_middle by done. by eexists.
    + by intros [? ?].
Qed.

Lemma GetOrCreateContext_registry_witness :
  registry (state_of (GetOrCreateContext "b" cfgB 0 taken1)) !! "a" = Some 0%nat.
Proof.
  destruct (GetOrCreateContext_registry "b" cfgB 0 taken1
              (state_of (GetOrCreateContext "b" cfgB 0 taken1)) (Some 1%nat) false None)
    as (H & _); [reflexivity|].
  apply H. reflexivity.
Defined.

(** ** The ceiling *)

Lemma evolves_counts (P : nat → Prop) (s s' : state) (M : Z) :
  0 <= M → evolves_on P s s' → counts_within M s → counts_within M s'.
Proof.
  intros HM Hev Hin. apply Forall_lookup_2. intros l c' Hl'.
  assert (is_Some (heap s !! l)) as [c Hl].
  { apply lookup_lt_is_Some. rewrite <- (ev_len _ _ _ Hev). by eapply lookup_lt_Some. }
  destruct (ev_ctx _ _ _ Hev l c Hl) as [H|(_ & _ & H)]; rewrite Hl' in H; injection H as ->.
  - by eapply (Forall_lookup_1 _ _ _ _ Hin).
  - simpl. lia.
Qed.

Lemma counts_insert (s : state) (l : nat) (c : MemoryContext) (M : Z) :
  counts_within M s → 0 <= referenceCount c <= M →
  counts_within M (set_heap (<[l := c]> (heap s)) s).
Proof. intros Hin Hc. unfold counts_within. simpl. by apply Forall_insert. Qed.

(** X11: under a positive ceiling no operation of the package takes a
    count above the ceiling or below zero.  If every count is between 0
    and [M], and the configured ceiling is positive and at most [M], the
    same holds after any operation. *)
Theorem counts_stay_within (o : op) (s s' : state) (M : Z) :
  1 <= M < 2 ^ 31 →
  (∀ cc, config (mgr s) = Some cc → 0 < MaxReferences cc <= M) →
  counts_within M s → run_op o s = Ret s' → counts_within M s'.
Proof.
  intros HM Hceil Hin Hrun.
  assert (∀ t : state, heap t = heap s → counts_within M t) as Hsame
    by (intros t Ht; unfold counts_within; by rewrite Ht).
  assert (∀ P t, evolves_on P s t → counts_within M t) as Hevolves.
  { intros P t Hev. eapply evolves_counts; [lia|exact Hev|done]. }
  destruct o; simpl in Hrun.
  - injection Hrun as <-. by apply Hsame.
  - injection Hrun as <-. unfold counts_within. simpl. apply Forall_app. split; [done|].
    apply Forall_singleton. simpl. lia.
  - apply fmap_Ret in Hrun as ([s1 r] & Hrun & ->). simpl.
    unfold GetOrCreateContext in Hrun.
    destruct (String.eqb k ""); [by injection Hrun as <- <-|].
    destruct (registry s !! k) as [l|].
    + destruct (heap s !! l) as [c|] eqn:Hl; [|done].
      destruct (closed c); [by injection Hrun as <- <-|].
      destruct (config (mgr s)) as [cc|]; [|done]. specialize (Hceil cc eq_refl).
      pose proof (Forall_lookup_1 _ _ _ _ Hin Hl) as Hc. simpl in Hc.
      destruct (Z.ltb_spec 0 (MaxReferences cc)); [|lia].
      destruct (Z.leb_spec (MaxReferences cc) (referenceCount c));
        simpl in Hrun; injection Hrun as <- <-; [done|].
      apply counts_insert; [done|]. simpl. rewrite wrap32_small by lia. lia.
    + simpl in Hrun. rewrite alter_last in Hrun. destruct (ctxCache (mgr s)); [|done].
      injection Hrun as <- <-. unfold counts_within. simpl. apply Forall_app.
      split; [done|]. apply Forall_singleton. simpl. lia.
  - apply fmap_Ret in Hrun as ([s1 r] & Hrun & ->). simpl.
    unfold ReturnContext in Hrun. destruct ctx as [l|]; [|by injection Hrun as <- <-].
    destruct (heap s !! l) as [c|] eqn:Hl; [|done].
    destruct (closed c); injection Hrun as <- <-; [done|].
    pose proof (Forall_lookup_1 _ _ _ _ Hin Hl) as Hc. simpl in Hc.
    apply counts_insert; [done|]. simpl. destruct (Z.ltb_spec 0 (referenceCount c)); lia.
  - apply fmap_Ret in Hrun as ([s1 r] & Hrun & ->). simpl.
    apply CloseContext_evolves in Hrun. by eapply Hevolves.
  - apply fmap_Ret in Hrun as (b & _ & ->). done.
  - apply cleanup_loop_evolves in Hrun. by eapply Hevolves.
  - apply StopCleanup_effect in Hrun as (Hh & _). by apply Hsame.
  - apply fmap_Ret in Hrun as ([s1 r] & Hrun & ->). simpl.
    unfold ContextManager_Close in Hrun.
    destruct (cm_closed (mgr s)); [by injection Hrun as <- <-|].
    destruct (config (mgr s)) as [cc|]; [|done].
    assert (∀ t, (if 0 <? CleanupInterval cc then StopCleanup s else Ret s) = Ret t →
                 heap t = heap s) as Hstop.
    { intros t. destruct (_ <? _); [|by intros [= <-]]. intros H.
      by apply StopCleanup_effect in H as (? & _). }
    destruct (if 0 <? CleanupInterval cc then StopCleanup s else Ret s) as [t| | |];
      simpl in Hrun; try done.
    specialize (Hstop t eq_refl).
    destruct (close_all _ t) as [[s2 e2]| | |] eqn:Hall; simpl in Hrun; try done.
    apply close_all_evolves in Hall.
    assert (counts_within M s2) as H2.
    { eapply evolves_counts; [lia|exact Hall|]. by apply Hsame. }
    destruct e2; by injection Hrun as <- <-.
  - apply fmap_Ret in Hrun as ([s1 r] & Hrun & ->). simpl.
    by apply CreateChild_returns in Hrun as [-> _].
  - unfold RegisterChild, RegisterChild_held in Hrun. destruct mc as [l|]; [|done].
    destruct (heap s !! l) as [c|] eqn:Hl; [|done].
    destruct (decide (l ∈ [])); [done|]. injection Hrun as <-.
    apply counts_insert; [done|]. simpl. by apply (Forall_lookup_1 _ _ _ _ Hin Hl).
  - apply fmap_Ret in Hrun as ([s1 r] & Hrun & ->). simpl.
    unfold CreatePool in Hrun. destruct mc as [l|]; [|done].
    destruct (heap s !! l) as [c|] eqn:Hl; [|done].
    destruct (closed c); [by injection Hrun as <- <-|].
    destruct (pool.NewPool cfg t); [|by injection Hrun as <- <-].
    destruct (pools c); [|done]. injection Hrun as <- <-.
    unfold counts_within. simpl. apply Forall_insert; [done|]. simpl.
    by apply (Forall_lookup_1 _ _ _ _ Hin Hl).
  - apply fmap_Ret in Hrun as ([s1 r] & Hrun & ->). apply Hsame. by eapply Acquire_heap.
  - apply fmap_Ret in Hrun as ([s1 r] & Hrun & ->). apply Hsame. by eapply Release_heap.
  - apply fmap_Ret in Hrun as ([s1 r] & Hrun & ->). simpl.
    unfold GetPool in Hrun. destruct mm as [l|]; [|done].
    destruct (heap s !! l); [|done]. by injection Hrun as <- <-.
  - apply fmap_Ret in Hrun as ([s1 r] & Hrun & ->). simpl.
    unfold Close in Hrun. apply Close_fuel_evolves in Hrun as [_ Hev]. by eapply Hevolves.
Qed.

Lemma counts_stay_within_witness :
  counts_within 2
    (state_of (GetOrCreateContext "A" cfgA 0 (state_of (GetOrCreateContext "A" cfgA 0 small)))).
Proof.
  apply (counts_stay_within (OpGetOrCreateContext "A" cfgA 0)
           (state_of (GetOrCreateContext "A" cfgA 0 small))).
  - lia.
  - intros cc Hcc. injection Hcc as <-. vm_compute. split; [reflexivity|discriminate].
  - apply List.Forall_cons; [split; discriminate|apply List.Forall_nil].
  - reflexivity.
Defined.

(** ** The reaper removes what is idle *)

Lemma pools_stay_refl (s : state) : pools_stay s s.
Proof. intros p pl ? ?. eauto. Qed.

Lemma pools_stay_trans (s1 s2 s3 : state) :
  pools_stay s1 s2 → pools_stay s2 s3 → pools_stay s1 s3.
Proof.
  intros H12 H23 p pl Hp Hf. destruct (H12 p pl Hp Hf) as (pl' & Hp' & Hf'). eauto.
Qed.

Lemma close_pools_stay (ps : list (string * nat)) (s s' : state) (e : option error) :
  close_pools ps s = Ret (s', e) → pools_stay s s'.
Proof.
  revert s. induction ps as [|[t p] ps IH]; intros s; simpl.
  { intros [= <- <-]. apply pools_stay_refl. }
  destruct (pstore s !! p) as [pl|] eqn:Hp; [|done].
  destruct (pool.Close pl) as [pl' err] eqn:Hcl.
  assert (pools_stay s (set_pstore (<[p:=pl']> (pstore s)) s)) as Hstep.
  { intros q ql Hq Hf. simpl. destruct (decide (p = q)) as [->|Hne].
    - exists pl'. split; [apply list_lookup_insert_eq; by eapply lookup_lt_Some|].
      rewrite Hp in Hq. injection Hq as <-. unfold pool.Close in Hcl.
      rewrite Hf in Hcl. by injection Hcl as <- <-.
    - exists ql. by rewrite list_lookup_insert_ne. }
  destruct err; [by intros [= <- <-]|]. intros Hrest.
  eapply pools_stay_trans; [exact Hstep|by apply IH].
Qed.

Lemma Close_fuel_pools_stay (f : nat) (held : list nat) (mc : ptr) (s s' : state)
    (e : option error) :
  Close_fuel f held mc s = Ret (s', e) → pools_stay s s'.
Proof.
  revert held mc s s' e. induction f as [|f IH]; intros held mc s s' e; [done|].
  intros H. apply Close_fuel_cases in H as (l & c & -> & Hl & Hheld & H).
  destruct H as [(Hc & -> & ->)|(Hc & s1 & e1 & Hp & H)]; [apply pools_stay_refl|].
  apply close_pools_stay in Hp.
  destruct H as [(_ & -> & ->)|(-> & s2 & e2 & Hch & H)]; [done|].
  assert (pools_stay s s2) as H2.
  { destruct (close_children_loop (Close_fuel f (l :: held)) (λ t, pools_stay s t)
                (λ _ _, True) (children c)) with (s := s1) (s' := s2) (e := e2)
      as [H2 _]; try done.
    intros ch t t' e' _ Ht Hcall. split; [|done].
    eapply pools_stay_trans; [exact Ht|by eapply IH]. }
  destruct H as [(_ & -> & ->)|(_ & -> & ->)]; done.
Qed.

Lemma cleanup_visit_pools_stay (now : Z) (entry : string * nat) (s s' : state) :
  cleanup_visit now entry s = Ret s' → pools_stay s s'.
Proof.
  destruct entry as [k l]. unfold cleanup_visit.
  destruct (heap s !! l) as [c|]; [|done].
  destruct (active c); [intros [= <-]; apply pools_stay_refl|].
  destruct (config (mgr s)); [|done].
  destruct (_ <? _); [|intros [= <-]; apply pools_stay_refl].
  unfold CloseContext. destruct (registry s !! k) as [x|]; [|intros [= <-]; apply pools_stay_refl].
  destruct (heap s !! x) as [cx|]; [|done].
  destruct (0 <? referenceCount cx); [intros [= <-]; apply pools_stay_refl|].
  destruct (Close (Some x) s) as [[s1 e1]| | |] eqn:Hclose; simpl; try done.
  unfold Close in Hclose. apply Close_fuel_pools_stay in Hclose.
  destruct e1; by intros [= <-].
Qed.

Lemma cleanup_loop_registry (now : Z) (entries : list (string * nat)) (s s' : state) :
  cleanup_loop now entries s = Ret s' →
  ∀ k l, registry s' !! k = Some l → registry s !! k = Some l.
Proof.
  revert s. induction entries as [|[k0 l0] entries IH]; intros s Hloop k l Hk.
  { by injection Hloop as <-. }
  change (cleanup_visit now (k0, l0) s ≫= cleanup_loop now entries = Ret s') in Hloop.
  destruct (cleanup_visit now (k0, l0) s) as [s1| | |] eqn:Hvisit; try done.
  simpl in Hloop. specialize (IH s1 Hloop k l Hk).
  unfold cleanup_visit in Hvisit. destruct (heap s !! l0) as [c|]; [|done].
  destruct (active c); [by injection Hvisit as <-|].
  destruct (config (mgr s)); [|done].
  destruct (_ <? _); [|by injection Hvisit as <-].
  destruct (CloseContext k0 true s) as [[s2 e]| | |] eqn:Hclose; simpl in Hvisit; try done.
  injection Hvisit as <-. apply CloseContext_mgr in Hclose as (_ & _ & _ & Hsub).
  by apply Hsub.
Qed.

(** The visit of an entry that is due: the context is closed and the
    entry removed. *)
Lemma cleanup_visit_reaps (now : Z) (k : string) (l : nat) (c : MemoryContext)
    (cc : ContextConfig) (s s1 : state) :
  config (mgr s) = Some cc → registry s !! k = Some l → heap s !! l = Some c →
  active c = false → referenceCount c <= 0 →
  MaxIdleTime cc < time_Since now (lastUsed c) →
  children c = [] → pools_close s c →
  cleanup_visit now (k, l) s = Ret s1 →
  registry s1 !! k = None ∧ is_closed s1 l.
Proof.
  intros Hcfg Hk Hl Hact Hcount Hidle Hch Hpools. unfold cleanup_visit.
  rewrite Hl, Hact, Hcfg.
  destruct (Z.ltb_spec (MaxIdleTime cc) (time_Since now (lastUsed c))); [|lia].
  assert (∃ t, Close (Some l) s = Ret (t, None)) as [t Hclose].
  { destruct (closed c) eqn:Hc.
    - exists s. unfold Close. simpl. rewrite Hl, Hc.
      destruct (decide (l ∈ [])) as [Hin|_]; [by apply elem_of_nil in Hin|done].
    - by apply (Close_leaf l c s). }
  unfold CloseContext. rewrite Hk, Hl.
  destruct (Z.ltb_spec 0 (referenceCount c)); [lia|]. rewrite Hclose. simpl.
  intros [= <-]. pose proof (Close_fuel_is_closed _ _ _ Hclose) as Hcl.
  unfold Close in Hclose. apply Close_fuel_evolves in Hclose as [Hm _].
  split; [|done]. unfold registry in *. simpl. rewrite Hm.
  destruct (ctxCache (mgr s)); simpl; [|done]. apply lookup_delete_eq.
Qed.

Lemma cleanup_loop_reaps (now : Z) (k : string) (l : nat) (c : MemoryContext)
    (cc : ContextConfig) (entries : list (string * nat)) (s s' : state) :
  NoDup entries.*1 → (∀ k' l', (k', l') ∈ entries → registry s !! k' = Some l') →
  top_level_roots s →
  config (mgr s) = Some cc → registry s !! k = Some l → heap s !! l = Some c →
  active c = false → referenceCount c <= 0 →
  MaxIdleTime cc < time_Since now (lastUsed c) →
  children c = [] → pools_close s c →
  cleanup_loop now entries s = Ret s' → (k, l) ∈ entries →
  registry s' !! k = None ∧ is_closed s' l.
Proof.
  intros Hnd Hin Hroots Hcfg Hk Hl Hact Hcount Hidle Hch Hpools Hloop Hmem.
  revert s Hnd Hin Hroots Hcfg Hk Hl Hpools Hloop Hmem.
  induction entries as [|[k0 l0] entries IH];
    intros s Hnd Hin Hroots Hcfg Hk Hl Hpools Hloop Hmem.
  { by apply elem_of_nil in Hmem. }
  change (cleanup_visit now (k0, l0) s ≫= cleanup_loop now entries = Ret s') in Hloop.
  destruct (cleanup_visit now (k0, l0) s) as [s1| | |] eqn:Hvisit; try done.
  simpl in Hloop. apply NoDup_cons in Hnd as [Hk0 Hnd].
  pose proof (Hin k0 l0 ltac:(left)) as Hreg0.
  destruct (decide (k0 = k)) as [->|Hne].
  - rewrite Hk in Hreg0. injection Hreg0 as <-.
    destruct (cleanup_visit_reaps _ _ _ _ _ _ _ Hcfg Hk Hl Hact Hcount Hidle Hch Hpools Hvisit)
      as [Hgone Hcl].
    split.
    + destruct (registry s' !! k) as [x|] eqn:Hx; [|done].
      apply (cleanup_loop_registry _ _ _ _ Hloop) in Hx. congruence.
    + eapply evolves_closed_stays; [by eapply cleanup_loop_evolves|done].
  - destruct (cleanup_visit_spec _ _ _ _ _ Hroots Hreg0 Hvisit)
      as (Hroots1 & Hcfg1 & Hother & _).
    destruct (Hother k l ltac:(done) Hk) as [Hk1 Hl1].
    apply (IH s1); try done.
    + intros k' l' Hin'. assert (k' ≠ k0) as Hne'.
      { intros ->. apply Hk0. apply list_elem_of_fmap. by exists (k0, l'). }
      apply Hother; [done|]. apply Hin. by right.
    + by rewrite Hcfg1.
    + by apply Hl1.
    + intros t p Ht. destruct (Hpools t p Ht) as (pl & Hp & Hf).
      by apply (cleanup_visit_pools_stay _ _ _ _ Hvisit p pl).
    + apply elem_of_cons in Hmem as [[= -> ->]|Hmem]; [done|done].
Qed.

(** X8: what the cleanup routine is for.  In a registry of roots, a
    registered context that is not active, has no reference, has been idle
    for longer than [MaxIdleTime], has no children and whose pools close
    without error is closed by a run of the routine and loses its entry,
    whatever happens to the other entries. *)
Theorem reaper_reaps_idle_leaf (now : Z) (k : string) (l : nat) (c : MemoryContext)
    (cc : ContextConfig) (s s' : state) :
  top_level_roots s → config (mgr s) = Some cc →
  registry s !! k = Some l → heap s !! l = Some c →
  active c = false → referenceCount c <= 0 →
  MaxIdleTime cc < time_Since now (lastUsed c) →
  children c = [] → pools_close s c →
  cleanupIdleContexts now s = Ret s' →
  registry s' !! k = None ∧ is_closed s' l.
Proof.
  intros Hroots Hcfg Hk Hl Hact Hcount Hidle Hch Hpools Hrun.
  eapply (cleanup_loop_reaps now k l c cc (map_to_list (registry s)) s s'); try done.
  - apply NoDup_fst_map_to_list.
  - intros k' l'. apply elem_of_map_to_list.
  - by apply elem_of_map_to_list.
Qed.

Lemma idle_with_pool_roots : top_level_roots idle_with_pool.
Proof.
  assert (registry idle_with_pool = <["a" := 0%nat]> ∅) as Hreg by reflexivity.
  split.
  - intros k l _ (p & c & Hp & Hin).
    destruct p as [|p]; simpl in Hp; [|done]. injection Hp as <-. simpl in Hin.
    by apply elem_of_nil in Hin.
  - intros k k' l. rewrite Hreg. rewrite !lookup_insert.
    repeat case_decide; subst; rewrite ?lookup_empty; congruence.
Qed.

Lemma reaper_reaps_idle_leaf_witness :
  registry (match cleanupIdleContexts 3600000000000 idle_with_pool with
            | Ret s' => s'
            | _ => empty_state
            end) !! "a" = None.
Proof.
  destruct (reaper_reaps_idle_leaf 3600000000000 "a" 0
              {| active := false; closed := false; referenceCount := 0;
                 contextType := "a"; parent := None; children := [];
                 pools := Some (<["A" := 0%nat]> ∅); createdAt := 0; lastUsed := 0 |}
              newDefaultConfig idle_with_pool
              (match cleanupIdleContexts 3600000000000 idle_with_pool with
               | Ret s' => s'
               | _ => empty_state
               end)) as [H _].
  - apply idle_with_pool_roots.
  - reflexivity.
  - reflexivity.
  - reflexivity.
  - reflexivity.
  - discriminate.
  - reflexivity.
  - reflexivity.
  - intros t p Ht. exists (sample_pool "A"). unfold ctx_pools in Ht. simpl in Ht.
    rewrite lookup_insert in Ht. case_decide; [|by rewrite lookup_empty in Ht].
    injection Ht as <-. split; reflexivity.
  - reflexivity.
  - exact H.
Defined.

(** ** Objects *)

(** X16: [Acquire] and [Release] never touch a context or the manager.
    [Release] reports [true] only on an open context that has a pool for
    the object type, and only for an object whose run-time type is that
    type; whenever it reports [false], and whenever [Acquire] yields
    nothing, the state is as it was. *)
Theorem Acquire_Release_effect (t : string) (obj : pool.Obj) (mm : ptr) (s s' : state) :
  (∀ b, Release t obj mm s = Ret (s', b) →
     heap s' = heap s ∧ mgr s' = mgr s ∧
     (b = false → s' = s) ∧
     (b = true → pool.obj_type obj = t ∧
        ∃ l c p, mm = Some l ∧ heap s !! l = Some c ∧ closed c = false ∧
                 ctx_pools c !! t = Some p)) ∧
  (∀ o, Acquire t mm s = Ret (s', o) →
     heap s' = heap s ∧ mgr s' = mgr s ∧ (o = None → s' = s)).
Proof.
  split.
  - intros b. unfold Release. destruct mm as [l|]; [|done].
    destruct (heap s !! l) as [c|] eqn:Hl; [|done].
    destruct (closed c) eqn:Hc; [by intros [= <- <-]|].
    destruct (ctx_pools c !! t) as [p|] eqn:Hp; [|by intros [= <- <-]].
    destruct (String.eqb (pool.obj_type obj) t) eqn:Ht; simpl; [|by intros [= <- <-]].
    destruct (pstore s !! p) as [pl|]; [|done]. intros [= <- <-].
    split_and!; try done. intros _. apply String.eqb_eq in Ht. split; [done|].
    exists l, c, p. done.
  - intros o. unfold Acquire. destruct mm as [l|]; [|done].
    destruct (heap s !! l) as [c|]; [|done].
    destruct (closed c); [by intros [= <- <-]|].
    destruct (ctx_pools c !! t) as [p|]; [|by intros [= <- <-]].
    destruct (pstore s !! p) as [pl|]; [|done].
    destruct (pool.Get pl). by intros [= <- <-].
Qed.

Lemma Acquire_Release_effect_witness :
  state_of (Release "A" {| pool.obj_type := "B"; pool.obj_id := 0 |} (Some 0%nat)
              idle_with_pool) = idle_with_pool.
Proof.
  destruct (Acquire_Release_effect "A" {| pool.obj_type := "B"; pool.obj_id := 0 |}
              (Some 0%nat) idle_with_pool
              (state_of (Release "A" {| pool.obj_type := "B"; pool.obj_id := 0 |}
                           (Some 0%nat) idle_with_pool))) as [H _].
  destruct (H false) as (_ & _ & Hsame & _); [reflexivity|].
  by apply Hsame.
Defined.

(** ** Closing by key and asking again *)

(** X17: after [CloseContext] has closed and removed the context of a key,
    [GetOrCreateContext] for that key creates a new context: it reports
    [wasExisting = false] and returns a handle different from the old one,
    which stays closed. *)
Theorem CloseContext_then_recreate (k : string) (locked : bool) (s s1 : state)
    (cfg : MemoryContextConfig) (now : Z) :
  k ≠ ""%string → CloseContext k locked s = Ret (s1, None) →
  ∃ l s2, registry s !! k = Some l ∧ is_closed s1 l ∧
          GetOrCreateContext k cfg now s1 = Ret (s2, (Some (length (heap s1)), false, None)) ∧
          l ≠ length (heap s1) ∧ is_closed s2 l ∧
          registry s2 !! k = Some (length (heap s1)).
Proof.
  intros Hk Hcall.
  destruct (CloseContext_success _ _ _ _ Hcall) as (l & Hreg & Hcl & Hgone & _).
  assert (∃ m, ctxCache (mgr s1) = Some m ∧ m !! k = None) as (m & Hcache & Hm).
  { unfold registry in Hgone. unfold CloseContext in Hcall. rewrite Hreg in Hcall.
    destruct (heap s !! l) as [c|]; [|done]. destruct (0 <? referenceCount c); [done|].
    destruct (Close (Some l) s) as [[t e1]| | |] eqn:Hclose; simpl in Hcall; try done.
    unfold Close in Hclose. apply Close_fuel_evolves in Hclose as [Hmg _].
    destruct e1; [done|]. injection Hcall as <-. simpl in *. rewrite Hmg in *.
    unfold registry in Hreg. destruct (ctxCache (mgr s)) as [m0|]; [|done].
    simpl in *. by exists (delete k m0). }
  exists l. eexists. split; [done|]. split; [done|].
  rewrite (GetOrCreateContext_new k cfg now s1 m Hk Hcache Hm).
  destruct Hcl as (c' & Hl' & Hc').
  assert (l < length (heap s1))%nat as Hlt by by eapply lookup_lt_Some.
  split_and!; [done|lia| |].
  - exists c'. simpl. by rewrite lookup_app_l, Hl'.
  - unfold registry. simpl. by rewrite lookup_insert_eq.
Qed.

Lemma CloseContext_then_recreate_witness :
  ∃ s2, GetOrCreateContext "a" cfgA 2 (state_of (CloseContext "a" false returned1)) =
          Ret (s2, (Some 1%nat, false, None)).
Proof.
  destruct (CloseContext_then_recreate "a" false returned1
              (state_of (CloseContext "a" false returned1)) cfgA 2)
    as (l & s2 & _ & _ & H & _).
  - discriminate.
  - reflexivity.
  - exists s2. exact H.
Defined.
